(** * VoiceBoard: shallow embedding of the transcriber and the hotkey engine

    The development follows [src/voiceboard/transcriber.py] (token
    reconciliation, session lifecycle), [src/voiceboard/hotkeys.py] (the
    evdev shortcut parser and recognition engine) and
    [src/voiceboard/audio.py] (the capture rate).  Python strings are
    modelled as [string], Python sets and frozensets of key codes as
    [gset Z], monotonic timestamps as [Q]. *)

From Stdlib Require Import QArith Ascii.
From stdpp Require Import base list gmap sets strings.

Open Scope string_scope.

(** stdpp blocks the reduction of string concatenation; the proofs below
    compute with it. *)
Arguments String.append : simpl nomatch.

(** ** Transcriber: token reconciliation ([RealtimeTranscriber]) *)

Module Transcriber.

(** A token dict of a Soniox response: [token.get("text", "")] and
    [token.get("is_final")] (missing = falsy). *)
Record token := mk_token { tok_text : string; tok_is_final : bool }.

(** [\w] of the control-token pattern, on ASCII characters. *)
Definition is_word_char (c : ascii) : bool :=
  let n := Ascii.nat_of_ascii c in
  (Nat.leb 48 n && Nat.leb n 57) || (Nat.leb 65 n && Nat.leb n 90) ||
  (Nat.leb 97 n && Nat.leb n 122) || Nat.eqb n 95.

(** [re.sub(r"<\w+>", "", text)]: a left-to-right scan.  [acc = Some w]
    means a ['<'] followed by the word characters [w] has been read and
    not yet emitted; greedy [\w+] followed by ['>'] is the only way to
    match, so an interrupted candidate is copied out unchanged. *)
Fixpoint strip_go (acc : option string) (s : string) : string :=
  match s with
  | EmptyString =>
      match acc with None => "" | Some w => String "<" w end
  | String c rest =>
      match acc with
      | None =>
          if Ascii.eqb c "<" then strip_go (Some "") rest
          else String c (strip_go None rest)
      | Some w =>
          if is_word_char c then strip_go (Some (String.append w (String c ""))) rest
          else if Ascii.eqb c ">" && negb (w =? "") then strip_go None rest
          else String "<" (String.append w
                 (if Ascii.eqb c "<" then strip_go (Some "") rest
                  else String c (strip_go None rest)))
      end
  end.

Definition strip_control (text : string) : string := strip_go None text.

(** The collection loop of [_process_tokens]: (final parts, non-final parts). *)
Fixpoint collect (tokens : list token) : list string * list string :=
  match tokens with
  | [] => ([], [])
  | t :: ts =>
      let '(fs, ns) := collect ts in
      let text := tok_text t in
      if text =? "" then (fs, ns)
      else
        let text := strip_control text in
        if text =? "" then (fs, ns)
        else if tok_is_final t then (text :: fs, ns) else (fs, text :: ns)
  end.

Definition final_text (tokens : list token) : string :=
  String.concat "" (fst (collect tokens)).
Definition nonfinal_text (tokens : list token) : string :=
  String.concat "" (snd (collect tokens)).

(** A correction instruction [on_text(new_text, backspace_count)]. *)
Definition instr : Type := string * nat.

(** [_process_tokens] on the tracked [_nonfinal_typed_text]: the emitted
    instruction (if any) and the new tracked text. *)
Definition process_tokens (nonfinal_typed : string) (tokens : list token)
  : option instr * string :=
  let ft := final_text tokens in
  let nt := nonfinal_text tokens in
  if (ft =? "") && (nt =? "") then (None, nonfinal_typed)
  else
    let backspace_count := String.length nonfinal_typed in
    let new_text := String.append ft nt in
    ((if Nat.ltb 0 backspace_count || negb (new_text =? "")
      then Some (new_text, backspace_count) else None), nt).

(** Successive responses of one session ([_listen]), starting from the
    tracked text; returns the emitted instructions and the final tracked
    text. *)
Fixpoint run_batches (nonfinal_typed : string) (batches : list (list token))
  : list instr * string :=
  match batches with
  | [] => ([], nonfinal_typed)
  | b :: bs =>
      let '(o, st) := process_tokens nonfinal_typed b in
      let '(is, st') := run_batches st bs in
      (match o with Some i => i :: is | None => is end, st')
  end.

(** The receiver of [on_text]: delete the last [bs] characters of the
    buffer, then append [text]. *)
Definition apply_instr (buf : string) (i : instr) : string :=
  let '(text, bs) := i in
  String.append (String.substring 0 (String.length buf - bs) buf) text.

Definition apply_all (buf : string) (is : list instr) : string :=
  fold_left apply_instr is buf.

(** Spec side of the correction law: all final text seen, and the
    non-final text of the latest batch that carried any text. *)
Definition final_so_far (batches : list (list token)) : string :=
  String.concat "" (map final_text batches).

Fixpoint last_nonfinal (dflt : string) (batches : list (list token)) : string :=
  match batches with
  | [] => dflt
  | b :: bs =>
      last_nonfinal
        (if (final_text b =? "") && (nonfinal_text b =? "") then dflt
         else nonfinal_text b) bs
  end.

End Transcriber.
(** ** Transcriber: session lifecycle ([RealtimeTranscriber]) *)

Module Session.

(** The fields of a [RealtimeTranscriber]; the websocket, the event loop
    and the thread are named by identifiers.  [has_on_error] records
    whether the [on_error] callback is set. *)
Record session := mk_session {
  api_key : string;
  language : string;
  running : bool;
  ws : option nat;
  loop : option nat;
  thread : option nat;
  nonfinal_typed_text : string;
  has_on_error : bool }.

(** The threads of the process, and the scheduler's answer to whether a
    given thread terminates within a given number of seconds. *)
Record world := mk_world {
  alive : gset nat;
  next_tid : nat;
  finishes_within : nat -> Q -> bool }.

(** Observable actions of the transcriber methods. *)
Inductive effect :=
| ErrorCallback (msg : string)
| JoinThread (tid : nat) (timeout : Q)
| StartThread (tid : nat)
| ScheduleSend (conn : nat) (data : list Byte.byte)
| ScheduleClose (conn : nat).

Definition key_not_set_msg : string :=
  "Soniox API key is not set. Please configure it in Settings.".

(** [thread.join(timeout)]: the thread is gone afterwards iff it
    terminated within the timeout. *)
Definition join (w : world) (t : nat) (timeout : Q) : world :=
  if finishes_within w t timeout
  then mk_world (alive w ∖ {[t]}) (next_tid w) (finishes_within w)
  else w.

(** [threading.Thread(target=self._run_loop).start()] *)
Definition spawn (w : world) : world * nat :=
  (mk_world ({[next_tid w]} ∪ alive w) (S (next_tid w)) (finishes_within w), next_tid w).

(** [start()] *)
Definition start (w : world) (s : session) : world * session * list effect :=
  if running s then (w, s, [])
  else if api_key s =? "" then
    (w, s, if has_on_error s then [ErrorCallback key_not_set_msg] else [])
  else
    let '(w1, effs) :=
      match thread s with
      | Some t => if bool_decide (t ∈ alive w) then (join w t 2, [JoinThread t 2])
                  else (w, [])
      | None => (w, [])
      end in
    let '(w2, tid) := spawn w1 in
    (w2, mk_session (api_key s) (language s) true (ws s) (loop s) (Some tid) ""
                    (has_on_error s),
     (effs ++ [StartThread tid])%list).

(** [stop(blocking)]; [loop_running] is [loop.is_running()]. *)
Definition stop (w : world) (s : session) (blocking : bool) (loop_running : bool)
  : world * session * list effect :=
  let effs := match ws s, loop s with
              | Some c, Some _ => if loop_running then [ScheduleClose c] else []
              | _, _ => []
              end in
  let s1 := mk_session (api_key s) (language s) false (ws s) (loop s) (thread s)
                       (nonfinal_typed_text s) (has_on_error s) in
  match blocking, thread s with
  | true, Some t =>
      (join w t 5,
       mk_session (api_key s) (language s) false None None None
                  (nonfinal_typed_text s) (has_on_error s),
       (effs ++ [JoinThread t 5])%list)
  | _, _ => (w, s1, effs)
  end.

(** [send_audio(pcm_bytes)] *)
Definition send_audio (s : session) (pcm_bytes : list Byte.byte) : session * list effect :=
  if negb (running s) then (s, [])
  else match ws s, loop s with
       | Some c, Some _ => (s, [ScheduleSend c pcm_bytes])
       | _, _ => (s, [])
       end.

(** The background thread of [start] after [websockets.connect] returned
    connection [c] on event loop [l] ([_run_loop] and [_session]). *)
Definition connected (s : session) (c l : nat) : session :=
  mk_session (api_key s) (language s) (running s) (Some c) (Some l) (thread s)
             (nonfinal_typed_text s) (has_on_error s).

(** The configuration message of [_send_config]. *)
Record config_msg := mk_config {
  cfg_api_key : string;
  cfg_model : string;
  cfg_audio_format : string;
  cfg_sample_rate : Z;
  cfg_num_channels : Z;
  cfg_enable_endpoint_detection : bool;
  cfg_language_hints : option (list string) }.

Definition send_config (s : session) : config_msg :=
  mk_config (api_key s) "stt-rt-preview" "pcm_s16le" 16000 1 true
            (if language s =? "" then None else Some [language s]).

End Session.

(** ** Audio capture ([src/voiceboard/audio.py]) *)

Module Audio.

(** [TARGET_RATE] *)
Definition TARGET_RATE : Z := 24000.

(** The rate of the PCM chunks [_audio_callback] hands to
    [on_audio_chunk] when the stream opened at [device_rate]: resampled
    by [_resample_linear] to [TARGET_RATE] when the rates differ. *)
Definition chunk_rate (device_rate : Z) : Z :=
  if (device_rate =? TARGET_RATE)%Z then device_rate else TARGET_RATE.

(** [_open_stream]: the device's default rate is tried first, then
    [TARGET_RATE]; [opens r] says whether PortAudio accepts rate [r]. *)
Definition open_rate (default_rate : Z) (opens : Z -> bool) : option Z :=
  if opens default_rate then Some default_rate
  else if opens TARGET_RATE then Some TARGET_RATE else None.

End Audio.

(** ** Hotkeys: the evdev shortcut parser ([src/voiceboard/hotkeys.py]) *)

Module Hotkeys.

(** *** Python string methods on ASCII characters *)

Definition char_of (n : nat) : ascii := Ascii.ascii_of_nat n.

(** [str.isspace] on ASCII: tab, newline, vertical tab, form feed,
    carriage return, the separators 0x1c..0x1f and space. *)
Definition is_space (c : ascii) : bool :=
  let n := Ascii.nat_of_ascii c in
  (Nat.leb 9 n && Nat.leb n 13) || (Nat.leb 28 n && Nat.leb n 32).

Fixpoint lstrip (s : string) : string :=
  match s with
  | EmptyString => EmptyString
  | String c r => if is_space c then lstrip r else s
  end.

Fixpoint rstrip (s : string) : string :=
  match s with
  | EmptyString => EmptyString
  | String c r =>
      let r' := rstrip r in
      if is_space c && (r' =? "") then EmptyString else String c r'
  end.

Definition strip (s : string) : string := rstrip (lstrip s).

Definition lower_char (c : ascii) : ascii :=
  let n := Ascii.nat_of_ascii c in
  if Nat.leb 65 n && Nat.leb n 90 then char_of (n + 32) else c.
Definition upper_char (c : ascii) : ascii :=
  let n := Ascii.nat_of_ascii c in
  if Nat.leb 97 n && Nat.leb n 122 then char_of (n - 32) else c.

Fixpoint map_chars (f : ascii -> ascii) (s : string) : string :=
  match s with
  | EmptyString => EmptyString
  | String c r => String (f c) (map_chars f r)
  end.

Definition lower (s : string) : string := map_chars lower_char s.
Definition upper (s : string) : string := map_chars upper_char s.

Fixpoint startswith (p s : string) : bool :=
  match p, s with
  | EmptyString, _ => true
  | String a p', String b s' => Ascii.eqb a b && startswith p' s'
  | _, _ => false
  end.

Fixpoint last_char (s : string) : option ascii :=
  match s with
  | EmptyString => None
  | String c EmptyString => Some c
  | String _ r => last_char r
  end.

Definition endswith_char (c : ascii) (s : string) : bool :=
  match last_char s with Some d => Ascii.eqb c d | None => false end.

Fixpoint contains_char (c : ascii) (s : string) : bool :=
  match s with
  | EmptyString => false
  | String d r => Ascii.eqb c d || contains_char c r
  end.

(** [s.split(sep)] *)
Fixpoint split (sep : ascii) (s : string) : list string :=
  match s with
  | EmptyString => [EmptyString]
  | String c r =>
      if Ascii.eqb c sep then EmptyString :: split sep r
      else match split sep r with
           | [] => [String c EmptyString]
           | x :: xs => String c x :: xs
           end
  end.

(** [s.split(sep, 1)] for a string that contains [sep]. *)
Fixpoint split_once (sep : ascii) (s : string) : string * string :=
  match s with
  | EmptyString => (EmptyString, EmptyString)
  | String c r =>
      if Ascii.eqb c sep then (EmptyString, r)
      else let '(a, b) := split_once sep r in (String c a, b)
  end.

(** [token[1:-1]] for a token of length at least 2. *)
Definition inner (s : string) : string :=
  String.substring 1 (String.length s - 2) s.

Fixpoint assoc {A} (k : string) (l : list (string * A)) : option A :=
  match l with
  | [] => None
  | (k', v) :: l' => if k =? k' then Some v else assoc k l'
  end.

(** *** The evdev key-code table *)

(** The [KEY_*] attributes of [evdev.ecodes] used by the module, with
    their Linux input-event-codes values; [getattr(ecodes, name, None)]
    is [assoc name ecodes_keys]. *)
Definition ecodes_keys : list (string * Z) :=
  [("KEY_ESC", 1); ("KEY_1", 2); ("KEY_2", 3); ("KEY_3", 4); ("KEY_4", 5);
   ("KEY_5", 6); ("KEY_6", 7); ("KEY_7", 8); ("KEY_8", 9); ("KEY_9", 10);
   ("KEY_0", 11); ("KEY_MINUS", 12); ("KEY_EQUAL", 13); ("KEY_BACKSPACE", 14);
   ("KEY_TAB", 15); ("KEY_Q", 16); ("KEY_W", 17); ("KEY_E", 18); ("KEY_R", 19);
   ("KEY_T", 20); ("KEY_Y", 21); ("KEY_U", 22); ("KEY_I", 23); ("KEY_O", 24);
   ("KEY_P", 25); ("KEY_LEFTBRACE", 26); ("KEY_RIGHTBRACE", 27);
   ("KEY_ENTER", 28); ("KEY_LEFTCTRL", 29); ("KEY_A", 30); ("KEY_S", 31);
   ("KEY_D", 32); ("KEY_F", 33); ("KEY_G", 34); ("KEY_H", 35); ("KEY_J", 36);
   ("KEY_K", 37); ("KEY_L", 38); ("KEY_SEMICOLON", 39); ("KEY_APOSTROPHE", 40);
   ("KEY_GRAVE", 41); ("KEY_LEFTSHIFT", 42); ("KEY_BACKSLASH", 43);
   ("KEY_Z", 44); ("KEY_X", 45); ("KEY_C", 46); ("KEY_V", 47); ("KEY_B", 48);
   ("KEY_N", 49); ("KEY_M", 50); ("KEY_COMMA", 51); ("KEY_DOT", 52);
   ("KEY_SLASH", 53); ("KEY_RIGHTSHIFT", 54); ("KEY_LEFTALT", 56);
   ("KEY_SPACE", 57); ("KEY_CAPSLOCK", 58); ("KEY_F1", 59); ("KEY_F2", 60);
   ("KEY_F3", 61); ("KEY_F4", 62); ("KEY_F5", 63); ("KEY_F6", 64);
   ("KEY_F7", 65); ("KEY_F8", 66); ("KEY_F9", 67); ("KEY_F10", 68);
   ("KEY_NUMLOCK", 69); ("KEY_SCROLLLOCK", 70); ("KEY_F11", 87);
   ("KEY_F12", 88); ("KEY_RIGHTCTRL", 97); ("KEY_SYSRQ", 99);
   ("KEY_RIGHTALT", 100); ("KEY_HOME", 102); ("KEY_UP", 103);
   ("KEY_PAGEUP", 104); ("KEY_LEFT", 105); ("KEY_RIGHT", 106);
   ("KEY_END", 107); ("KEY_DOWN", 108); ("KEY_PAGEDOWN", 109);
   ("KEY_INSERT", 110); ("KEY_DELETE", 111); ("KEY_MUTE", 113);
   ("KEY_PAUSE", 119); ("KEY_LEFTMETA", 125); ("KEY_RIGHTMETA", 126)]%Z.

(** [_evdev_token_map] (built by [_build_evdev_maps]). *)
Definition evdev_token_map : list (string * list Z) :=
  [("<ctrl>", [29; 97]); ("<shift>", [42; 54]); ("<alt>", [56; 100]);
   ("<super>", [125; 126]); ("<cmd>", [125; 126]); ("<space>", [57]);
   ("<enter>", [28]); ("<tab>", [15]); ("<backspace>", [14]);
   ("<delete>", [111]); ("<home>", [102]); ("<end>", [107]);
   ("<page_up>", [104]); ("<page_down>", [109]); ("<up>", [103]);
   ("<down>", [108]); ("<left>", [105]); ("<right>", [106]);
   ("<insert>", [110]); ("<pause>", [119]); ("<print_screen>", [99]);
   ("<scroll_lock>", [70]); ("<caps_lock>", [58]); ("<num_lock>", [69]);
   ("<f1>", [59]); ("<f2>", [60]); ("<f3>", [61]); ("<f4>", [62]);
   ("<f5>", [63]); ("<f6>", [64]); ("<f7>", [65]); ("<f8>", [66]);
   ("<f9>", [67]); ("<f10>", [68]); ("<f11>", [87]); ("<f12>", [88])]%Z.

(** [_evdev_char_map]: letters and digits map to [KEY_<upper>], then the
    punctuation entries. *)
Definition evdev_char_map : list (string * Z) :=
  [("a", 30); ("b", 48); ("c", 46); ("d", 32); ("e", 18); ("f", 33);
   ("g", 34); ("h", 35); ("i", 23); ("j", 36); ("k", 37); ("l", 38);
   ("m", 50); ("n", 49); ("o", 24); ("p", 25); ("q", 16); ("r", 19);
   ("s", 31); ("t", 20); ("u", 22); ("v", 47); ("w", 17); ("x", 45);
   ("y", 21); ("z", 44); ("0", 11); ("1", 2); ("2", 3); ("3", 4);
   ("4", 5); ("5", 6); ("6", 7); ("7", 8); ("8", 9); ("9", 10);
   ("-", 12); ("=", 13); ("[", 26); ("]", 27); (";", 39); ("'", 40);
   (".", 52); ("/", 53); (String (char_of 92) "", 43); ("`", 41)]%Z.

(** *** Parsed shortcuts *)

(** [_ShortcutConfig]: [seq_keys] is the empty tuple ([None]) or the pair
    (first_key, second_key). *)
Record ShortcutConfig := mk_cfg { combo : gset Z; seq_keys : option (Z * Z) }.

Definition empty_cfg : ShortcutConfig := mk_cfg ∅ None.

Definition is_sequential (cfg : ShortcutConfig) : bool :=
  match seq_keys cfg with Some _ => true | None => false end.
Definition is_combo (cfg : ShortcutConfig) : bool :=
  negb (bool_decide (combo cfg = ∅)).
Definition is_empty (cfg : ShortcutConfig) : bool :=
  negb (is_combo cfg) && negb (is_sequential cfg).

(** [_normalize_shortcut_str] *)
Definition normalize_shortcut_str (s : string) : string :=
  if startswith "2x" s then
    let token := String.substring 2 (String.length s - 2) s in
    String.append token (String "," token)
  else s.

(** [_resolve_evdev_token]: [None] is the logged "Unknown shortcut token". *)
Definition resolve_evdev_token (token : string) : option Z :=
  let token := lower (strip token) in
  match assoc token evdev_token_map with
  | Some codes => head codes
  | None =>
      match assoc token evdev_char_map with
      | Some c => Some c
      | None =>
          if startswith "<" token && endswith_char ">" token then
            assoc (String.append "KEY_" (upper (inner token))) ecodes_keys
          else None
      end
  end.

(** The loop over the [+]-separated parts: the set of resolved codes. *)
Fixpoint resolve_parts (parts : list string) : gset Z :=
  match parts with
  | [] => ∅
  | p :: ps =>
      match resolve_evdev_token p with
      | Some c => {[c]} ∪ resolve_parts ps
      | None => resolve_parts ps
      end
  end.

(** [_parse_shortcut_evdev] *)
Definition parse_shortcut_evdev (shortcut_str : string) : ShortcutConfig :=
  if shortcut_str =? "" then empty_cfg
  else
    let s := normalize_shortcut_str shortcut_str in
    if contains_char "," s then
      let '(h0, h1) := split_once "," s in
      match resolve_evdev_token h0, resolve_evdev_token h1 with
      | Some first, Some second => mk_cfg ∅ (Some (first, second))
      | _, _ => empty_cfg
      end
    else
      let codes := resolve_parts (split "+" s) in
      if bool_decide (codes = ∅) then empty_cfg else mk_cfg codes None.

(** *** Recognition engine ([_EvdevHotkeyListener]) *)

(** [_SEQ_WINDOW = 0.6] seconds. *)
Definition SEQ_WINDOW : Q := 3 # 5.

(** [_SeqState]; [reset] gives back the initial value. *)
Record SeqState := mk_seq { armed : bool; armed_time : Q }.
Definition seq_init : SeqState := mk_seq false 0.

(** [_check_seq cfg state code], with [now = time.monotonic()] read at
    the call: the answer and the updated state. *)
Definition check_seq (cfg : ShortcutConfig) (state : SeqState) (code : Z) (now : Q)
  : bool * SeqState :=
  match seq_keys cfg with
  | None => (false, state)
  | Some (first_key, second_key) =>
      if (code =? second_key)%Z && armed state
         && Qle_bool (now - armed_time state) SEQ_WINDOW
      then (true, seq_init)
      else if (code =? first_key)%Z then (false, mk_seq true now)
      else (false, state)
  end.

(** Successive [_check_seq] calls for presses of [code] at the given
    monotonic times: the answers and the final state. *)
Fixpoint run_taps (cfg : ShortcutConfig) (state : SeqState) (code : Z) (times : list Q)
  : list bool * SeqState :=
  match times with
  | [] => ([], state)
  | t :: ts =>
      let '(fired, st) := check_seq cfg state code t in
      let '(rest, st') := run_taps cfg st code ts in
      (fired :: rest, st')
  end.

(** [_combo_matches] *)
Definition combo_matches (cfg : ShortcutConfig) (current_keys : gset Z) : bool :=
  is_combo cfg && bool_decide (combo cfg ⊆ current_keys).

(** The callbacks the engine invokes. *)
Inductive callback := on_toggle | on_ptt_press | on_ptt_release.

(** The transient recognition state of the listener. *)
Record Listener := mk_listener {
  toggle_cfg : ShortcutConfig;
  ptt_cfg : ShortcutConfig;
  current_keys : gset Z;
  toggle_seq : SeqState;
  ptt_seq : SeqState;
  toggle_combo_active : bool;
  ptt_combo_active : bool }.

Definition set_current (s : Listener) (k : gset Z) : Listener :=
  mk_listener (toggle_cfg s) (ptt_cfg s) k (toggle_seq s) (ptt_seq s)
    (toggle_combo_active s) (ptt_combo_active s).
Definition set_toggle_seq (s : Listener) (q : SeqState) : Listener :=
  mk_listener (toggle_cfg s) (ptt_cfg s) (current_keys s) q (ptt_seq s)
    (toggle_combo_active s) (ptt_combo_active s).
Definition set_ptt_seq (s : Listener) (q : SeqState) : Listener :=
  mk_listener (toggle_cfg s) (ptt_cfg s) (current_keys s) (toggle_seq s) q
    (toggle_combo_active s) (ptt_combo_active s).
Definition set_toggle_active (s : Listener) (b : bool) : Listener :=
  mk_listener (toggle_cfg s) (ptt_cfg s) (current_keys s) (toggle_seq s) (ptt_seq s)
    b (ptt_combo_active s).
Definition set_ptt_active (s : Listener) (b : bool) : Listener :=
  mk_listener (toggle_cfg s) (ptt_cfg s) (current_keys s) (toggle_seq s) (ptt_seq s)
    (toggle_combo_active s) b.

(** [__init__]: all transient state cleared. *)
Definition init_listener : Listener :=
  mk_listener empty_cfg empty_cfg ∅ seq_init seq_init false false.

(** The "Toggle shortcut" block of [_on_key_down]. *)
Definition toggle_down (s : Listener) (code : Z) (now : Q) : Listener * list callback :=
  if is_sequential (toggle_cfg s) then
    let '(fired, st) := check_seq (toggle_cfg s) (toggle_seq s) code now in
    (set_toggle_seq s st, if fired then [on_toggle] else [])
  else if is_combo (toggle_cfg s) then
    if combo_matches (toggle_cfg s) (current_keys s) then
      if negb (toggle_combo_active s) then (set_toggle_active s true, [on_toggle])
      else (s, [])
    else (s, [])
  else (s, []).

(** The "PTT shortcut" block of [_on_key_down]. *)
Definition ptt_down (s : Listener) (code : Z) (now : Q) : Listener * list callback :=
  if is_sequential (ptt_cfg s) then
    let '(fired, st) := check_seq (ptt_cfg s) (ptt_seq s) code now in
    let s' := set_ptt_seq s st in
    if fired then
      if negb (ptt_combo_active s') then (set_ptt_active s' true, [on_ptt_press])
      else (s', [])
    else (s', [])
  else if is_combo (ptt_cfg s) then
    if combo_matches (ptt_cfg s) (current_keys s) then
      if negb (ptt_combo_active s) then (set_ptt_active s true, [on_ptt_press])
      else (s, [])
    else (s, [])
  else (s, []).

(** [_on_key_down(code)] *)
Definition on_key_down (s : Listener) (code : Z) (now : Q) : Listener * list callback :=
  let '(s1, out1) := toggle_down s code now in
  let '(s2, out2) := ptt_down s1 code now in
  (s2, (out1 ++ out2)%list).

(** "PTT release (combo)" of [_on_key_up]. *)
Definition ptt_release_combo (s : Listener) (code : Z) : Listener * list callback :=
  if ptt_combo_active s && is_combo (ptt_cfg s) then
    if bool_decide (code ∈ combo (ptt_cfg s)) then
      (set_ptt_active s false, [on_ptt_release])
    else (s, [])
  else (s, []).

(** "PTT release (sequential — release the second key)" of [_on_key_up]. *)
Definition ptt_release_seq (s : Listener) (code : Z) : Listener * list callback :=
  if ptt_combo_active s && is_sequential (ptt_cfg s) then
    match seq_keys (ptt_cfg s) with
    | Some (_, second_key) =>
        if (code =? second_key)%Z then (set_ptt_active s false, [on_ptt_release])
        else (s, [])
    | None => (s, [])
    end
  else (s, []).

(** "Toggle combo latch reset" of [_on_key_up]. *)
Definition toggle_latch_reset (s : Listener) (code : Z) : Listener :=
  if toggle_combo_active s && is_combo (toggle_cfg s) then
    if bool_decide (code ∈ combo (toggle_cfg s)) then set_toggle_active s false
    else s
  else s.

(** [_on_key_up(code)] *)
Definition on_key_up (s : Listener) (code : Z) : Listener * list callback :=
  let '(s1, out1) := ptt_release_combo s code in
  let '(s2, out2) := ptt_release_seq s1 code in
  (toggle_latch_reset s2 code, (out1 ++ out2)%list).

(** [_EVDEV_MODIFIER_PAIRS] (filled by [set_shortcuts]): right modifiers
    to their left variants. *)
Definition EVDEV_MODIFIER_PAIRS : list (Z * Z) :=
  [(97, 29); (54, 42); (100, 56); (126, 125)]%Z.

Definition normalize_key (code : Z) : Z :=
  match find (fun p => (fst p =? code)%Z) EVDEV_MODIFIER_PAIRS with
  | Some (_, left_code) => left_code
  | None => code
  end.

(** An input event of [dev.read()]; [ev_time] is the monotonic clock
    when the event is handled. *)
Record key_event := mk_event { ev_type : Z; ev_code : Z; ev_value : Z; ev_time : Q }.

Definition EV_KEY : Z := 1.

(** The body of the read loop of [_run] for one event. *)
Definition handle_event (s : Listener) (ev : key_event) : Listener * list callback :=
  if negb (ev_type ev =? EV_KEY)%Z then (s, [])
  else
    let code := normalize_key (ev_code ev) in
    if (ev_value ev =? 1)%Z then
      on_key_down (set_current s ({[code]} ∪ current_keys s)) code (ev_time ev)
    else if (ev_value ev =? 0)%Z then
      let '(s1, out) := on_key_up s code in
      (set_current s1 (current_keys s1 ∖ {[code]}), out)
    else (s, []).

Fixpoint run_events (s : Listener) (evs : list key_event) : Listener * list callback :=
  match evs with
  | [] => (s, [])
  | ev :: evs' =>
      let '(s1, o1) := handle_event s ev in
      let '(s2, o2) := run_events s1 evs' in
      (s2, (o1 ++ o2)%list)
  end.

(** [set_shortcuts]: reparse both shortcuts and reset both sequential
    states. *)
Definition set_shortcuts (s : Listener) (toggle_shortcut ptt_shortcut : string)
  : Listener :=
  mk_listener (parse_shortcut_evdev toggle_shortcut) (parse_shortcut_evdev ptt_shortcut)
    (current_keys s) seq_init seq_init (toggle_combo_active s) (ptt_combo_active s).

(** [stop], on the recognition state (the thread and pipe handling
    does not touch it). *)
Definition stop (s : Listener) : Listener :=
  mk_listener (toggle_cfg s) (ptt_cfg s) ∅ seq_init seq_init false false.

End Hotkeys.

(** ** Transcriber: control messages and the response loop *)

Module Stream.
Import Transcriber Session.

(** A text frame scheduled on the event loop with
    [asyncio.run_coroutine_threadsafe(ws.send(msg), loop)]. *)
Inductive message := SendText (conn : nat) (text : string).

Definition dq : string := String (Ascii.ascii_of_nat 34) "".

(** [json.dumps({"type": "finalize"})] *)
Definition finalize_msg : string :=
  String.append "{" (String.append dq (String.append "type" (String.append dq
    (String.append ": " (String.append dq (String.append "finalize"
      (String.append dq "}"))))))).

(** The guard shared by [send_audio], [finalize] and [send_eof]. *)
Definition send_text (s : session) (text : string) : list message :=
  if negb (running s) then []
  else match ws s, loop s with
       | Some c, Some _ => [SendText c text]
       | _, _ => []
       end.

(** [finalize()] *)
Definition finalize (s : session) : list message := send_text s finalize_msg.

(** [send_eof()]: the empty string signals end of audio. *)
Definition send_eof (s : session) : list message := send_text s "".

(** [is_connected] *)
Definition is_connected (s : session) : bool :=
  running s && match ws s with Some _ => true | None => false end.

(** [update_api_key] and [update_language] *)
Definition update_api_key (s : session) (key : string) : session :=
  mk_session key (language s) (running s) (ws s) (loop s) (thread s)
             (nonfinal_typed_text s) (has_on_error s).
Definition update_language (s : session) (lang : string) : session :=
  mk_session (api_key s) lang (running s) (ws s) (loop s) (thread s)
             (nonfinal_typed_text s) (has_on_error s).

(** A decoded server response (a JSON object):
    [response.get("error_code")] (the empty string when missing or falsy),
    [response.get("error_message", "")], [response.get("tokens")] ([]
    when missing) and [response.get("finished")]. *)
Record response := mk_response {
  error_code : string;
  error_message : string;
  tokens : list token;
  finished : bool }.

(** A frame of [async for raw in ws]: [json.loads] fails, or gives a
    response object. *)
Inductive frame := Undecodable | Decoded (r : response).

(** The callbacks [_listen] invokes: [on_text] through [_process_tokens],
    and [on_error]. *)
Inductive listen_out := OnText (i : instr) | OnError (msg : string).

(** [f"{response['error_code']} - {response.get('error_message', '')}"] *)
Definition error_text (r : response) : string :=
  String.append (error_code r) (String.append " - " (error_message r)).

Definition opt_text (o : option instr) : list listen_out :=
  match o with Some i => [OnText i] | None => [] end.

(** [_listen]: each frame comes with the value of [self._running] when
    the loop body reads it (another thread may clear it); the result is
    the callbacks invoked and the final [_nonfinal_typed_text]. *)
Fixpoint listen (has_on_error : bool) (nonfinal_typed : string)
  (frames : list (bool * frame)) : list listen_out * string :=
  match frames with
  | [] => ([], nonfinal_typed)
  | (run, f) :: fs =>
      if negb run then ([], nonfinal_typed)
      else match f with
           | Undecodable => listen has_on_error nonfinal_typed fs
           | Decoded r =>
               if negb (error_code r =? "") then
                 let '(out, st) := listen has_on_error nonfinal_typed fs in
                 (((if has_on_error then [OnError (error_text r)] else []) ++ out)%list, st)
               else
                 let '(o, st1) :=
                   match tokens r with
                   | [] => (None, nonfinal_typed)
                   | ts => process_tokens nonfinal_typed ts
                   end in
                 if finished r then (opt_text o, st1)
                 else let '(out, st) := listen has_on_error st1 fs in
                      ((opt_text o ++ out)%list, st)
           end
  end.

End Stream.

(** ** Hotkeys: the Wayland warning helper ([needs_evdev]) *)

Module Warn.
Import Hotkeys.

(** [_MODIFIER_TOKENS] *)
Definition MODIFIER_TOKENS : list string := ["<ctrl>"; "<shift>"; "<alt>"; "<super>"; "<cmd>"].

(** [needs_evdev] *)
Definition needs_evdev (shortcut_str : string) : bool :=
  if shortcut_str =? "" then false
  else
    let s := normalize_shortcut_str shortcut_str in
    if contains_char "," s then true
    else
      let parts := map (fun p => lower (strip p)) (split "+" s) in
      negb (existsb (fun p => existsb (String.eqb p) MODIFIER_TOKENS) parts).

End Warn.

(** ** Audio capture: the [AudioRecorder] state machine *)

Module Recorder.
Import Audio.

(** The fields of an [AudioRecorder]: whether [_stream] is open,
    [_recording], [_previewing], [_device_rate], and whether [on_level]
    and [on_audio_chunk] are set. *)
Record recorder := mk_recorder {
  stream_open : bool;
  recording : bool;
  previewing : bool;
  device_rate : Z;
  has_on_level : bool;
  has_on_audio_chunk : bool }.

(** The selected input device: its [default_samplerate] ([None] when
    [sd.query_devices] raises) and whether PortAudio opens an input stream
    at a given rate ([false] is [sd.PortAudioError]). *)
Record device := mk_device { default_samplerate : option Z; opens : Z -> bool }.

(** Observable actions: the stream opened at a rate and started, the
    stream stopped and closed, and the two callbacks. *)
Inductive aeffect := OpenStream (rate : Z) | CloseStream | Level | Chunk (pcm : list Z).

(** [__init__] *)
Definition init_recorder (on_level on_chunk : bool) : recorder :=
  mk_recorder false false false TARGET_RATE on_level on_chunk.

Definition set_stream (r : recorder) (b : bool) (rate : Z) : recorder :=
  mk_recorder b (recording r) (previewing r) rate (has_on_level r) (has_on_audio_chunk r).
Definition set_recording (r : recorder) (b : bool) : recorder :=
  mk_recorder (stream_open r) b (previewing r) (device_rate r) (has_on_level r)
    (has_on_audio_chunk r).
Definition set_previewing (r : recorder) (b : bool) : recorder :=
  mk_recorder (stream_open r) (recording r) b (device_rate r) (has_on_level r)
    (has_on_audio_chunk r).

(** [_open_stream]; [None] is the [RuntimeError] raised when no rate
    opens, the recorder being left as it was.  The candidate rates are
    [dict.fromkeys([device_rate, TARGET_RATE])], as in [Audio.open_rate]. *)
Definition open_stream (d : device) (r : recorder) : option (recorder * list aeffect) :=
  if stream_open r then Some (r, [])
  else
    let rate0 := match default_samplerate d with Some x => x | None => TARGET_RATE end in
    match open_rate rate0 (opens d) with
    | Some rate => Some (set_stream r true rate, [OpenStream rate])
    | None => None
    end.

(** [_close_stream] *)
Definition close_stream (r : recorder) : recorder * list aeffect :=
  if stream_open r then (set_stream r false (device_rate r), [CloseStream]) else (r, []).

(** [start_preview] *)
Definition start_preview (d : device) (r : recorder) : option (recorder * list aeffect) :=
  if previewing r || recording r then Some (r, [])
  else match open_stream d r with
       | Some (r1, e) => Some (set_previewing r1 true, e)
       | None => None
       end.

(** [stop_preview] *)
Definition stop_preview (r : recorder) : recorder * list aeffect :=
  if negb (previewing r) then (r, [])
  else let r1 := set_previewing r false in
       if negb (recording r1) then close_stream r1 else (r1, []).

(** [start] *)
Definition start (d : device) (r : recorder) : option (recorder * list aeffect) :=
  if recording r then Some (r, [])
  else match open_stream d r with
       | Some (r1, e) => Some (set_recording r1 true, e)
       | None => None
       end.

(** [stop] *)
Definition stop (r : recorder) : recorder * list aeffect :=
  if negb (recording r) then (r, [])
  else let r1 := set_recording r false in
       if negb (previewing r1) then close_stream r1 else (r1, []).

Section Callback.

(** [_resample_linear(data, src_rate, dst_rate)] on the first channel. *)
Variable resample_linear : list Z -> Z -> Z -> list Z.

(** [_audio_callback(indata, ...)]: [indata] is the block of frames, one
    list of channel samples per frame. *)
Definition audio_callback (r : recorder) (indata : list (list Z)) : list aeffect :=
  if negb (recording r) && negb (previewing r) then []
  else
    ((if has_on_level r then [Level] else []) ++
    (if negb (recording r) then []
     else
       let pcm := map (fun frame => hd 0%Z frame) indata in
       let pcm := if negb (device_rate r =? TARGET_RATE)%Z
                  then resample_linear pcm (device_rate r) TARGET_RATE else pcm in
       if has_on_audio_chunk r then [Chunk pcm] else []))%list.

(** The operations the application performs on the recorder. *)
Inductive op := OpStartPreview | OpStopPreview | OpStart | OpStop | OpCallback (indata : list (list Z)).

(** One operation; [None] when it raises. *)
Definition step (d : device) (r : recorder) (o : op) : option (recorder * list aeffect) :=
  match o with
  | OpStartPreview => start_preview d r
  | OpStopPreview => Some (stop_preview r)
  | OpStart => start d r
  | OpStop => Some (stop r)
  | OpCallback indata => Some (r, audio_callback r indata)
  end.

(** A sequence of operations, stopping at the first that raises: the
    state reached and the actions so far. *)
Fixpoint run_ops (d : device) (r : recorder) (ops : list op) : recorder * list aeffect :=
  match ops with
  | [] => (r, [])
  | o :: os =>
      match step d r o with
      | Some (r1, e1) => let '(r2, e2) := run_ops d r1 os in (r2, (e1 ++ e2)%list)
      | None => (r, [])
      end
  end.

End Callback.

End Recorder.

(** ** Application wiring of the transcriber callbacks ([src/voiceboard/app.py],
    [src/voiceboard/ui.py]) *)

Module Wiring.
Import Transcriber Stream.

(** The [on_text] handler [VoiceBoardApp] installs (app.py, line 254) is
    [lambda text, bs, has_final, final_text: ...]: four required
    parameters, no defaults.  [_process_tokens] calls
    [self.on_text(new_text, backspace_count)] with two arguments. *)
Definition APP_ON_TEXT_PARAMS : nat := 4.
Definition ON_TEXT_ARGS : nat := 2.

(** Calling a lambda without defaults or [*args] with a different number
    of positional arguments raises [TypeError]. *)
Definition call_raises (params : nat) : bool := negb (Nat.eqb params ON_TEXT_ARGS).

(** [_listen] with an [on_text] handler of [params] parameters: the
    callbacks that completed, the tracked text, and whether an exception
    escaped.  The handler is called before [_nonfinal_typed_text] is
    updated, so a raising call leaves the tracked text as it was. *)
Fixpoint listen_calls (params : nat) (has_on_error : bool) (nonfinal_typed : string)
  (frames : list (bool * frame)) : list listen_out * string * bool :=
  match frames with
  | [] => ([], nonfinal_typed, false)
  | (run, f) :: fs =>
      if negb run then ([], nonfinal_typed, false)
      else match f with
           | Undecodable => listen_calls params has_on_error nonfinal_typed fs
           | Decoded r =>
               if negb (error_code r =? "") then
                 let '(out, st, exc) := listen_calls params has_on_error nonfinal_typed fs in
                 (((if has_on_error then [OnError (error_text r)] else []) ++ out)%list, st, exc)
               else
                 let '(o, st1) :=
                   match tokens r with
                   | [] => (None, nonfinal_typed)
                   | ts => process_tokens nonfinal_typed ts
                   end in
                 match o with
                 | Some _ =>
                     if call_raises params then ([], nonfinal_typed, true)
                     else if finished r then (opt_text o, st1, false)
                     else let '(out, st, exc) := listen_calls params has_on_error st1 fs in
                          ((opt_text o ++ out)%list, st, exc)
                 | None =>
                     if finished r then ([], st1, false)
                     else listen_calls params has_on_error st1 fs
                 end
           end
  end.

(** [MainWindow.update_live_text] on the preview's plain text (the
    session accumulator [_session_text] is updated the same way). *)
Definition update_live_text (current : string) (text : string) (backspace_count : nat) : string :=
  let current :=
    if Nat.ltb 0 backspace_count then
      if Nat.ltb backspace_count (String.length current)
      then String.substring 0 (String.length current - backspace_count) current
      else ""
    else current in
  String.append current text.

End Wiring.

(** ** Typing: the portal backend's keysym injection *)

Module Typer.

(** [_WaylandPortalTyper._char_to_keysym], on the code point [ord(ch)]. *)
Definition char_to_keysym (cp : Z) : Z :=
  if (cp =? 10)%Z then 65293%Z
  else if (cp =? 9)%Z then 65289%Z
  else if (cp =? 8)%Z then 65288%Z
  else if (32 <=? cp)%Z && (cp <=? 126)%Z then cp
  else if (160 <=? cp)%Z && (cp <=? 255)%Z then cp
  else (16777216 + cp)%Z.

(** A [NotifyKeyboardKeysym] call the portal accepted, with its state
    argument: [1] press, [0] release. *)
Inductive notify := Notify (keysym : Z) (state : Z).

(** [_WaylandPortalTyper.type_text] on a text given as its code points;
    [ready] is [self._session_path and self._rd is not None], and
    [outcomes] the successive results of the D-Bus calls ([false] where
    the call raises; calls past its end succeed).  A failing call ends
    the loop ([break]). *)
Fixpoint type_keysyms (outcomes : list bool) (text : list Z) : list notify :=
  match text with
  | [] => []
  | ch :: rest =>
      let k := char_to_keysym ch in
      match outcomes with
      | false :: _ => []
      | _ =>
          let outs := tl outcomes in
          match outs with
          | false :: _ => [Notify k 1]
          | _ => Notify k 1 :: Notify k 0 :: type_keysyms (tl outs) rest
          end
      end
  end.

Definition type_text (ready : bool) (outcomes : list bool) (text : list Z) : list notify :=
  if negb ready then [] else type_keysyms outcomes text.

(** What [type_text] delivers when every call succeeds. *)
Definition press_release (text : list Z) : list notify :=
  flat_map (fun ch => [Notify (char_to_keysym ch) 1; Notify (char_to_keysym ch) 0]) text.

End Typer.

(** ** String helpers shared by the modules *)

Module Str.

Lemma app_assoc (a b c : string) :
  String.append a (String.append b c) = String.append (String.append a b) c.
Proof. induction a as [|x a IH]; simpl; [reflexivity | now rewrite IH]. Qed.

Lemma app_nil_r (a : string) : String.append a "" = a.
Proof. induction a as [|x a IH]; simpl; congruence. Qed.

Lemma length_app (a b : string) :
  String.length (String.append a b) = String.length a + String.length b.
Proof. induction a as [|x a IH]; simpl; congruence. Qed.

Lemma substring_prefix (a b : string) :
  String.substring 0 (String.length a) (String.append a b) = a.
Proof.
  induction a as [|x a IH]; simpl.
  - destruct b; reflexivity.
  - now rewrite IH.
Qed.

Lemma eqb_empty (a : string) : (a =? "") = true <-> a = "".
Proof. apply String.eqb_eq. Qed.

End Str.

(** ** Proofs about the token reconciler *)

Module TranscriberFacts.
Import Transcriber.

Example strip_control_tags : strip_control "hello<end> world<fin>" = "hello world".
Proof. reflexivity. Qed.

Example strip_control_partial : strip_control "<<a>>x<> <b c>" = "<>x<> <b c>".
Proof. reflexivity. Qed.

Example process_tokens_example :
  process_tokens "helo" [mk_token "hello" true; mk_token " wor" false; mk_token "<end>" true]
  = (Some ("hello wor", 4), " wor").
Proof. reflexivity. Qed.

Lemma concat_empty_cons (x : string) (xs : list string) :
  String.concat "" (x :: xs) = String.append x (String.concat "" xs).
Proof. destruct xs; simpl; [now rewrite Str.app_nil_r | reflexivity]. Qed.

Lemma erase_tracked (F st : string) :
  String.substring 0 (String.length (String.append F st) - String.length st)
    (String.append F st) = F.
Proof.
  rewrite Str.length_app.
  replace (String.length F + String.length st - String.length st)
    with (String.length F) by lia.
  apply Str.substring_prefix.
Qed.

Definition apply_opt (buf : string) (o : option instr) : string :=
  match o with Some i => apply_instr buf i | None => buf end.

(** One batch: a buffer ending in the tracked text becomes the buffer
    extended by the batch's final text and ending in the new tracked text. *)
Lemma process_tokens_buffer (F st : string) (b : list token) :
  apply_opt (String.append F st) (fst (process_tokens st b))
  = String.append (String.append F (final_text b)) (snd (process_tokens st b)).
Proof.
  unfold process_tokens.
  destruct ((final_text b =? "") && (nonfinal_text b =? "")) eqn:E; simpl.
  - apply andb_prop in E as [E1 _]. apply Str.eqb_empty in E1. rewrite E1.
    now rewrite Str.app_nil_r.
  - destruct (Nat.ltb 0 (String.length st)
              || negb (String.append (final_text b) (nonfinal_text b) =? "")) eqn:G;
      simpl.
    + rewrite erase_tracked. apply Str.app_assoc.
    + apply orb_false_iff in G as [G1 G2].
      apply negb_false_iff, Str.eqb_empty in G2.
      apply Nat.ltb_ge in G1.
      destruct st; [|simpl in G1; lia].
      destruct (final_text b) eqn:Hf; [|discriminate].
      simpl in G2 |- *. rewrite G2. now rewrite !Str.app_nil_r.
Qed.

Lemma run_batches_buffer (batches : list (list token)) :
  forall F st,
    apply_all (String.append F st) (fst (run_batches st batches))
    = String.append F (String.append (final_so_far batches)
                                     (last_nonfinal st batches))
    /\ snd (run_batches st batches) = last_nonfinal st batches.
Proof.
  induction batches as [|b bs IH]; intros F st; simpl.
  - unfold final_so_far; simpl. split; reflexivity.
  - pose proof (process_tokens_buffer F st b) as Hb.
    destruct (process_tokens st b) as [o st1] eqn:P.
    destruct (run_batches st1 bs) as [is st'] eqn:R. simpl in Hb |- *.
    assert (Hst1 : st1 = (if (final_text b =? "") && (nonfinal_text b =? "")
                          then st else nonfinal_text b)).
    { unfold process_tokens in P.
      destruct ((final_text b =? "") && (nonfinal_text b =? "")); congruence. }
    destruct (IH (String.append F (final_text b)) st1) as [IH1 IH2].
    rewrite R in IH1, IH2. simpl in IH1, IH2. rewrite <- Hst1.
    unfold final_so_far. simpl map. rewrite concat_empty_cons.
    split; [|exact IH2].
    replace (apply_all (String.append F st) (match o with Some i => i :: is | None => is end))
      with (apply_all (apply_opt (String.append F st) o) is)
      by (destruct o; reflexivity).
    rewrite Hb, IH1. rewrite !Str.app_assoc. reflexivity.
Qed.

(** A batch produces an instruction exactly when it carries final or
    non-final text, so [last_nonfinal] follows the batches that produced
    an instruction. *)
Lemma process_tokens_emits (st : string) (b : list token) :
  fst (process_tokens st b) <> None
  <-> ~ (final_text b = "" /\ nonfinal_text b = "").
Proof.
  unfold process_tokens.
  destruct (final_text b =? "") eqn:F; destruct (nonfinal_text b =? "") eqn:N; simpl.
  - apply Str.eqb_empty in F, N. split; [congruence | tauto].
  - apply Str.eqb_empty in F. rewrite F. simpl. rewrite N. simpl.
    rewrite orb_true_r. split; [|discriminate]. intros _ [_ HN].
    apply String.eqb_neq in N. contradiction.
  - apply String.eqb_neq in F.
    assert (Hne : (String.append (final_text b) (nonfinal_text b) =? "") = false).
    { apply String.eqb_neq. intros E. destruct (final_text b); [contradiction|discriminate]. }
    rewrite Hne, orb_true_r. split; [intros _ [HF _]; contradiction | discriminate].
  - apply String.eqb_neq in F.
    assert (Hne : (String.append (final_text b) (nonfinal_text b) =? "") = false).
    { apply String.eqb_neq. intros E. destruct (final_text b); [contradiction|discriminate]. }
    rewrite Hne, orb_true_r. split; [intros _ [HF _]; contradiction | discriminate].
Qed.

(** Claim C1 (reconciler correction law): for every sequence of token
    batches and every prefix of it, applying the emitted correction
    instructions in order to an empty buffer yields all final text seen so
    far followed by the non-final text of the latest batch that produced an
    instruction; the tracked provisional text is that same non-final text. *)
Theorem reconciler_correction_law (batches : list (list token)) (k : nat) :
  let pre := firstn k batches in
  apply_all "" (fst (run_batches "" pre))
  = String.append (final_so_far pre) (last_nonfinal "" pre)
  /\ snd (run_batches "" pre) = last_nonfinal "" pre.
Proof. intros pre. exact (run_batches_buffer pre "" ""). Qed.

Example reconciler_two_batches :
  apply_all "" (fst (run_batches ""
    [[mk_token "helo" false]; [mk_token "hello" true; mk_token " wo" false]]))
  = "hello wo".
Proof. reflexivity. Qed.

End TranscriberFacts.

(** ** Proofs about the chord (simultaneous) bindings *)

Module ChordFacts.
Import Hotkeys.

Definition key_down (code : Z) (now : Q) : key_event := mk_event EV_KEY code 1 now.
Definition key_up (code : Z) (now : Q) : key_event := mk_event EV_KEY code 0 now.

(** A key-up event, after normalisation, of a key of [K]. *)
Definition releases (K : gset Z) (ev : key_event) : Prop :=
  ev_type ev = EV_KEY /\ ev_value ev = 0%Z /\ normalize_key (ev_code ev) ∈ K.

Lemma is_combo_mk (K : gset Z) : K ≠ ∅ -> is_combo (mk_cfg K None) = true.
Proof. intros HK. unfold is_combo. simpl. now rewrite bool_decide_false. Qed.

Ltac unfold_setters :=
  unfold set_current, set_toggle_seq, set_ptt_seq, set_toggle_active,
    set_ptt_active in *.

Ltac split_blocks :=
  repeat (case_match; simpl in *; subst);
  repeat match goal with H : (_, _) = (_, _) |- _ => injection H as <- <- end;
  simpl.

(** The PTT blocks leave the toggle binding alone and never invoke
    [on_toggle]. *)
Lemma ptt_down_toggle_fields (s : Listener) (code : Z) (now : Q) :
  toggle_cfg (fst (ptt_down s code now)) = toggle_cfg s /\
  toggle_combo_active (fst (ptt_down s code now)) = toggle_combo_active s /\
  ~ In on_toggle (snd (ptt_down s code now)).
Proof. unfold ptt_down; unfold_setters; split_blocks; intuition congruence. Qed.

Lemma ptt_release_combo_toggle_fields (s : Listener) (code : Z) :
  toggle_cfg (fst (ptt_release_combo s code)) = toggle_cfg s /\
  toggle_combo_active (fst (ptt_release_combo s code)) = toggle_combo_active s /\
  ptt_cfg (fst (ptt_release_combo s code)) = ptt_cfg s /\
  ~ In on_toggle (snd (ptt_release_combo s code)) /\
  ~ In on_ptt_press (snd (ptt_release_combo s code)).
Proof. unfold ptt_release_combo; unfold_setters; split_blocks; intuition congruence. Qed.

Lemma ptt_release_seq_toggle_fields (s : Listener) (code : Z) :
  toggle_cfg (fst (ptt_release_seq s code)) = toggle_cfg s /\
  toggle_combo_active (fst (ptt_release_seq s code)) = toggle_combo_active s /\
  ptt_cfg (fst (ptt_release_seq s code)) = ptt_cfg s /\
  ~ In on_toggle (snd (ptt_release_seq s code)) /\
  ~ In on_ptt_press (snd (ptt_release_seq s code)).
Proof. unfold ptt_release_seq; unfold_setters; split_blocks; intuition congruence. Qed.

(** The toggle block leaves the PTT binding alone and only invokes
    [on_toggle]. *)
Lemma toggle_down_ptt_fields (s : Listener) (code : Z) (now : Q) :
  ptt_cfg (fst (toggle_down s code now)) = ptt_cfg s /\
  ptt_combo_active (fst (toggle_down s code now)) = ptt_combo_active s /\
  current_keys (fst (toggle_down s code now)) = current_keys s /\
  toggle_cfg (fst (toggle_down s code now)) = toggle_cfg s /\
  ~ In on_ptt_press (snd (toggle_down s code now)).
Proof. unfold toggle_down; unfold_setters; split_blocks; intuition congruence. Qed.

Lemma toggle_latch_reset_fields (s : Listener) (code : Z) :
  toggle_cfg (toggle_latch_reset s code) = toggle_cfg s /\
  ptt_cfg (toggle_latch_reset s code) = ptt_cfg s /\
  ptt_combo_active (toggle_latch_reset s code) = ptt_combo_active s.
Proof. unfold toggle_latch_reset; unfold_setters; split_blocks; auto. Qed.

(** The toggle block of a chord binding. *)
Lemma toggle_down_combo (s : Listener) (K : gset Z) (code : Z) (now : Q) :
  toggle_cfg s = mk_cfg K None -> K ≠ ∅ ->
  toggle_down s code now =
  (if bool_decide (K ⊆ current_keys s) && negb (toggle_combo_active s)
   then (set_toggle_active s true, [on_toggle]) else (s, [])).
Proof.
  intros Hc HK. unfold toggle_down, combo_matches, is_sequential.
  rewrite Hc, (is_combo_mk K HK). simpl.
  destruct (bool_decide (K ⊆ current_keys s)), (toggle_combo_active s); reflexivity.
Qed.

Lemma ptt_down_combo (s : Listener) (K : gset Z) (code : Z) (now : Q) :
  ptt_cfg s = mk_cfg K None -> K ≠ ∅ ->
  ptt_down s code now =
  (if bool_decide (K ⊆ current_keys s) && negb (ptt_combo_active s)
   then (set_ptt_active s true, [on_ptt_press]) else (s, [])).
Proof.
  intros Hc HK. unfold ptt_down, combo_matches, is_sequential.
  rewrite Hc, (is_combo_mk K HK). simpl.
  destruct (bool_decide (K ⊆ current_keys s)), (ptt_combo_active s); reflexivity.
Qed.

Lemma handle_event_cfgs (s : Listener) (ev : key_event) :
  toggle_cfg (fst (handle_event s ev)) = toggle_cfg s /\
  ptt_cfg (fst (handle_event s ev)) = ptt_cfg s.
Proof.
  unfold handle_event.
  destruct (negb (ev_type ev =? EV_KEY)%Z); [simpl; auto|].
  destruct (ev_value ev =? 1)%Z.
  - unfold on_key_down.
    pose proof (toggle_down_ptt_fields
      (set_current s ({[normalize_key (ev_code ev)]} ∪ current_keys s))
      (normalize_key (ev_code ev)) (ev_time ev)) as T.
    destruct (toggle_down _ _ _) as [s1 o1]; simpl in T.
    pose proof (ptt_down_toggle_fields s1 (normalize_key (ev_code ev)) (ev_time ev)) as P.
    assert (Hp : ptt_cfg (fst (ptt_down s1 (normalize_key (ev_code ev)) (ev_time ev)))
                 = ptt_cfg s1)
      by (unfold ptt_down; unfold_setters; split_blocks; reflexivity).
    destruct (ptt_down _ _ _) as [s2 o2]; simpl in *. intuition congruence.
  - destruct (ev_value ev =? 0)%Z; [|simpl; auto].
    unfold on_key_up.
    pose proof (ptt_release_combo_toggle_fields s (normalize_key (ev_code ev))) as P1.
    destruct (ptt_release_combo _ _) as [s1 o1]; simpl in P1.
    pose proof (ptt_release_seq_toggle_fields s1 (normalize_key (ev_code ev))) as P2.
    destruct (ptt_release_seq _ _) as [s2 o2]; simpl in P2.
    pose proof (toggle_latch_reset_fields s2 (normalize_key (ev_code ev))) as P3.
    simpl. intuition congruence.
Qed.

(** A latched toggle chord stays latched, and silent, on any event that is
    not the release of one of its keys. *)
Lemma toggle_latched_step (s : Listener) (K : gset Z) (ev : key_event) :
  toggle_cfg s = mk_cfg K None -> K ≠ ∅ -> toggle_combo_active s = true ->
  ~ releases K ev ->
  ~ In on_toggle (snd (handle_event s ev)) /\
  toggle_combo_active (fst (handle_event s ev)) = true.
Proof.
  intros Hc HK Ha Hr. unfold handle_event.
  destruct (negb (ev_type ev =? EV_KEY)%Z) eqn:Et; [simpl; auto|].
  destruct (ev_value ev =? 1)%Z eqn:E1.
  - unfold on_key_down.
    rewrite (toggle_down_combo _ K) by (simpl; auto). simpl. rewrite Ha, andb_false_r.
    pose proof (ptt_down_toggle_fields
      (set_current s ({[normalize_key (ev_code ev)]} ∪ current_keys s))
      (normalize_key (ev_code ev)) (ev_time ev)) as P.
    destruct (ptt_down _ _ _) as [s2 o2]; simpl in *. intuition congruence.
  - destruct (ev_value ev =? 0)%Z eqn:E0; [|simpl; auto].
    unfold on_key_up.
    pose proof (ptt_release_combo_toggle_fields s (normalize_key (ev_code ev))) as P1.
    destruct (ptt_release_combo _ _) as [s1 o1]; simpl in P1.
    pose proof (ptt_release_seq_toggle_fields s1 (normalize_key (ev_code ev))) as P2.
    destruct (ptt_release_seq _ _) as [s2 o2]; simpl in P2.
    destruct P1 as (C1 & A1 & _ & N1 & _). destruct P2 as (C2 & A2 & _ & N2 & _).
    assert (Hn : normalize_key (ev_code ev) ∉ K).
    { intros Hin. apply Hr. split; [|split; [|exact Hin]].
      - apply negb_false_iff, Z.eqb_eq in Et. exact Et.
      - apply Z.eqb_eq in E0. exact E0. }
    unfold toggle_latch_reset. rewrite A2, A1, Ha, C2, C1, Hc, (is_combo_mk K HK).
    simpl. rewrite bool_decide_false by exact Hn. simpl.
    split; [rewrite in_app_iff; tauto | congruence].
Qed.

Lemma ptt_latched_step (s : Listener) (K : gset Z) (ev : key_event) :
  ptt_cfg s = mk_cfg K None -> K ≠ ∅ -> ptt_combo_active s = true ->
  ~ releases K ev ->
  ~ In on_ptt_press (snd (handle_event s ev)) /\
  ptt_combo_active (fst (handle_event s ev)) = true.
Proof.
  intros Hc HK Ha Hr. unfold handle_event.
  destruct (negb (ev_type ev =? EV_KEY)%Z) eqn:Et; [simpl; auto|].
  destruct (ev_value ev =? 1)%Z eqn:E1.
  - unfold on_key_down.
    pose proof (toggle_down_ptt_fields
      (set_current s ({[normalize_key (ev_code ev)]} ∪ current_keys s))
      (normalize_key (ev_code ev)) (ev_time ev)) as T.
    destruct (toggle_down _ _ _) as [s1 o1]; simpl in T.
    destruct T as (C1 & A1 & _ & _ & N1).
    rewrite (ptt_down_combo s1 K) by congruence. rewrite A1, Ha, andb_false_r.
    simpl. rewrite app_nil_r. split; [exact N1 | congruence].
  - destruct (ev_value ev =? 0)%Z eqn:E0; [|simpl; auto].
    assert (Hn : normalize_key (ev_code ev) ∉ K).
    { intros Hin. apply Hr. split; [|split; [|exact Hin]].
      - apply negb_false_iff, Z.eqb_eq in Et. exact Et.
      - apply Z.eqb_eq in E0. exact E0. }
    unfold on_key_up, ptt_release_combo, ptt_release_seq, is_sequential.
    rewrite Ha, Hc, (is_combo_mk K HK). simpl. rewrite bool_decide_false by exact Hn.
    simpl. rewrite Ha. simpl.
    pose proof (toggle_latch_reset_fields s (normalize_key (ev_code ev))) as P3.
    simpl. rewrite Hc. simpl. intuition congruence.
Qed.

Lemma run_toggle_latched (K : gset Z) (HK : K ≠ ∅) (evs : list key_event) :
  forall s, toggle_cfg s = mk_cfg K None -> toggle_combo_active s = true ->
  (forall ev, In ev evs -> ~ releases K ev) ->
  ~ In on_toggle (snd (run_events s evs)) /\
  toggle_combo_active (fst (run_events s evs)) = true.
Proof.
  induction evs as [|ev evs IH]; intros s Hc Ha Hr; simpl; [auto|].
  pose proof (toggle_latched_step s K ev Hc HK Ha (Hr ev (or_introl eq_refl))) as [N1 A1].
  pose proof (handle_event_cfgs s ev) as [C1 _].
  destruct (handle_event s ev) as [s1 o1]; simpl in *.
  destruct (IH s1 ltac:(congruence) A1 (fun e H => Hr e (or_intror H))) as [N2 A2].
  destruct (run_events s1 evs) as [s2 o2]; simpl in *.
  rewrite in_app_iff. tauto.
Qed.

Lemma run_ptt_latched (K : gset Z) (HK : K ≠ ∅) (evs : list key_event) :
  forall s, ptt_cfg s = mk_cfg K None -> ptt_combo_active s = true ->
  (forall ev, In ev evs -> ~ releases K ev) ->
  ~ In on_ptt_press (snd (run_events s evs)) /\
  ptt_combo_active (fst (run_events s evs)) = true.
Proof.
  induction evs as [|ev evs IH]; intros s Hc Ha Hr; simpl; [auto|].
  pose proof (ptt_latched_step s K ev Hc HK Ha (Hr ev (or_introl eq_refl))) as [N1 A1].
  pose proof (handle_event_cfgs s ev) as [_ C1].
  destruct (handle_event s ev) as [s1 o1]; simpl in *.
  destruct (IH s1 ltac:(congruence) A1 (fun e H => Hr e (or_intror H))) as [N2 A2].
  destruct (run_events s1 evs) as [s2 o2]; simpl in *.
  rewrite in_app_iff. tauto.
Qed.

Lemma toggle_down_fires (s : Listener) (K : gset Z) (code : Z) (now : Q) :
  toggle_cfg s = mk_cfg K None -> K ≠ ∅ ->
  (In on_toggle (snd (handle_event s (key_down code now)))
   <-> K ⊆ {[normalize_key code]} ∪ current_keys s /\ toggle_combo_active s = false) /\
  (K ⊆ {[normalize_key code]} ∪ current_keys s ->
   toggle_combo_active (fst (handle_event s (key_down code now))) = true).
Proof.
  intros Hc HK. unfold handle_event, key_down. simpl. unfold on_key_down.
  rewrite (toggle_down_combo _ K) by (simpl; auto). simpl.
  set (H := {[normalize_key code]} ∪ current_keys s).
  destruct (bool_decide (K ⊆ H)) eqn:Hs;
    [apply bool_decide_eq_true in Hs | apply bool_decide_eq_false in Hs];
    destruct (toggle_combo_active s) eqn:Ha; simpl;
    match goal with |- context [ptt_down ?x ?c ?n] =>
      pose proof (ptt_down_toggle_fields x c n) as P; destruct (ptt_down x c n) end;
    simpl in *; intuition (try congruence).
Qed.

Lemma ptt_down_fires (s : Listener) (K : gset Z) (code : Z) (now : Q) :
  ptt_cfg s = mk_cfg K None -> K ≠ ∅ ->
  (In on_ptt_press (snd (handle_event s (key_down code now)))
   <-> K ⊆ {[normalize_key code]} ∪ current_keys s /\ ptt_combo_active s = false) /\
  (K ⊆ {[normalize_key code]} ∪ current_keys s ->
   ptt_combo_active (fst (handle_event s (key_down code now))) = true).
Proof.
  intros Hc HK. unfold handle_event, key_down. simpl. unfold on_key_down.
  set (H := {[normalize_key code]} ∪ current_keys s).
  pose proof (toggle_down_ptt_fields (set_current s H) (normalize_key code) now) as T.
  destruct (toggle_down _ _ _) as [s1 o1]; simpl in T.
  destruct T as (C1 & A1 & K1 & _ & N1).
  rewrite (ptt_down_combo s1 K) by congruence. rewrite A1, K1. simpl.
  destruct (bool_decide (K ⊆ H)) eqn:Hs;
    [apply bool_decide_eq_true in Hs | apply bool_decide_eq_false in Hs];
    destruct (ptt_combo_active s) eqn:Ha; simpl;
    rewrite ?in_app_iff; simpl; intuition (try congruence).
Qed.

Lemma toggle_release_clears (s : Listener) (K : gset Z) (code : Z) (now : Q) :
  toggle_cfg s = mk_cfg K None -> K ≠ ∅ -> normalize_key code ∈ K ->
  toggle_combo_active (fst (handle_event s (key_up code now))) = false.
Proof.
  intros Hc HK Hin. unfold handle_event, key_up. simpl. unfold on_key_up.
  pose proof (ptt_release_combo_toggle_fields s (normalize_key code)) as P1.
  destruct (ptt_release_combo _ _) as [s1 o1]; simpl in P1.
  pose proof (ptt_release_seq_toggle_fields s1 (normalize_key code)) as P2.
  destruct (ptt_release_seq _ _) as [s2 o2]; simpl in P2.
  destruct P1 as (C1 & A1 & _). destruct P2 as (C2 & A2 & _). simpl.
  unfold toggle_latch_reset. rewrite C2, C1, Hc, (is_combo_mk K HK), A2, A1.
  destruct (toggle_combo_active s) eqn:Ha; simpl.
  - rewrite bool_decide_true by exact Hin. reflexivity.
  - congruence.
Qed.

Lemma ptt_release_clears (s : Listener) (K : gset Z) (code : Z) (now : Q) :
  ptt_cfg s = mk_cfg K None -> K ≠ ∅ -> normalize_key code ∈ K ->
  ptt_combo_active (fst (handle_event s (key_up code now))) = false.
Proof.
  intros Hc HK Hin. unfold handle_event, key_up. simpl.
  unfold on_key_up, ptt_release_combo, ptt_release_seq, is_sequential.
  rewrite Hc, (is_combo_mk K HK).
  destruct (ptt_combo_active s) eqn:Ha; simpl.
  - rewrite bool_decide_true by exact Hin. simpl.
    pose proof (toggle_latch_reset_fields (set_ptt_active s false) (normalize_key code))
      as (_ & _ & P). simpl in *. exact P.
  - rewrite Ha. simpl.
    pose proof (toggle_latch_reset_fields s (normalize_key code)) as (_ & _ & P).
    simpl. congruence.
Qed.

(** Claim C2 (chord subset property): for a simultaneous shortcut with
    key set [K] bound as toggle or as push-to-talk, a key-down fires the
    binding iff [K] is a subset of the held keys (including the key just
    pressed) and the latch is clear, and leaves the latch set whenever [K]
    is held; once latched, no stream of events without a release of a key
    of [K] fires it again, and releasing a key of [K] clears the latch. *)
Theorem chord_subset_property (K : gset Z) :
  K ≠ ∅ ->
  (forall s code now, toggle_cfg s = mk_cfg K None ->
     (In on_toggle (snd (handle_event s (key_down code now)))
      <-> K ⊆ {[normalize_key code]} ∪ current_keys s /\ toggle_combo_active s = false) /\
     (K ⊆ {[normalize_key code]} ∪ current_keys s ->
      toggle_combo_active (fst (handle_event s (key_down code now))) = true)) /\
  (forall s evs, toggle_cfg s = mk_cfg K None -> toggle_combo_active s = true ->
     (forall ev, In ev evs -> ~ releases K ev) ->
     ~ In on_toggle (snd (run_events s evs)) /\
     toggle_combo_active (fst (run_events s evs)) = true) /\
  (forall s code now, toggle_cfg s = mk_cfg K None -> normalize_key code ∈ K ->
     toggle_combo_active (fst (handle_event s (key_up code now))) = false) /\
  (forall s code now, ptt_cfg s = mk_cfg K None ->
     (In on_ptt_press (snd (handle_event s (key_down code now)))
      <-> K ⊆ {[normalize_key code]} ∪ current_keys s /\ ptt_combo_active s = false) /\
     (K ⊆ {[normalize_key code]} ∪ current_keys s ->
      ptt_combo_active (fst (handle_event s (key_down code now))) = true)) /\
  (forall s evs, ptt_cfg s = mk_cfg K None -> ptt_combo_active s = true ->
     (forall ev, In ev evs -> ~ releases K ev) ->
     ~ In on_ptt_press (snd (run_events s evs)) /\
     ptt_combo_active (fst (run_events s evs)) = true) /\
  (forall s code now, ptt_cfg s = mk_cfg K None -> normalize_key code ∈ K ->
     ptt_combo_active (fst (handle_event s (key_up code now))) = false).
Proof.
  intros HK. split; [|split; [|split; [|split; [|split]]]].
  - intros s code now Hc. exact (toggle_down_fires s K code now Hc HK).
  - intros s evs Hc Ha Hr. exact (run_toggle_latched K HK evs s Hc Ha Hr).
  - intros s code now Hc Hin. exact (toggle_release_clears s K code now Hc HK Hin).
  - intros s code now Hc. exact (ptt_down_fires s K code now Hc HK).
  - intros s evs Hc Ha Hr. exact (run_ptt_latched K HK evs s Hc Ha Hr).
  - intros s code now Hc Hin. exact (ptt_release_clears s K code now Hc HK Hin).
Qed.

Lemma chord_subset_property_witness :
  ({[29%Z; 47%Z]} : gset Z) ≠ ∅ /\
  (forall s code now, toggle_cfg s = mk_cfg {[29%Z; 47%Z]} None ->
     (In on_toggle (snd (handle_event s (key_down code now)))
      <-> {[29%Z; 47%Z]} ⊆ {[normalize_key code]} ∪ current_keys s
          /\ toggle_combo_active s = false) /\
     ({[29%Z; 47%Z]} ⊆ {[normalize_key code]} ∪ current_keys s ->
      toggle_combo_active (fst (handle_event s (key_down code now))) = true)).
Proof.
  assert (HK : ({[29%Z; 47%Z]} : gset Z) ≠ ∅) by set_solver.
  split; [exact HK | apply (chord_subset_property {[29%Z; 47%Z]} HK)].
Defined.

(** Right Ctrl (normalised to left Ctrl) then V fires; pressing and
    releasing A meanwhile does not fire again; releasing and pressing V
    again does. *)
Example ctrl_v_fires_per_release :
  let s0 := set_shortcuts init_listener "<ctrl>+v" "" in
  snd (run_events s0 [key_down 97 0; key_down 47 0; key_down 30 0; key_up 30 0;
                      key_up 47 0; key_down 47 0])
  = [on_toggle; on_toggle].
Proof. vm_compute. reflexivity. Qed.

End ChordFacts.


(** ** Proofs about the sequential bindings *)

Module SeqFacts.
Import Hotkeys.

Open Scope Q_scope.

Definition seq_cfg (first_key second_key : Z) : ShortcutConfig :=
  mk_cfg ∅ (Some (first_key, second_key)).

Lemma check_seq_second (first_key second_key : Z) (t0 t1 : Q) :
  check_seq (seq_cfg first_key second_key) (mk_seq true t0) second_key t1 =
  if Qle_bool (t1 - t0) SEQ_WINDOW then (true, seq_init)
  else if (second_key =? first_key)%Z then (false, mk_seq true t1)
  else (false, mk_seq true t0).
Proof. unfold check_seq; simpl. rewrite Z.eqb_refl. reflexivity. Qed.

Lemma check_seq_first_other (first_key second_key : Z) (st : SeqState) (t : Q) :
  first_key <> second_key ->
  check_seq (seq_cfg first_key second_key) st first_key t = (false, mk_seq true t).
Proof.
  intros Hne. unfold check_seq; simpl.
  rewrite (proj2 (Z.eqb_neq first_key second_key) Hne), Z.eqb_refl. reflexivity.
Qed.

(** Claim C3 (sequential timing property): with the state armed by the
    first key at [t0], a second-key press at [t1] fires iff
    [t1 - t0 <= W], and a fire clears the arming; a late press does not
    fire, and the machine re-arms for a later pair: for distinct keys the
    next first-key press arms at its own time, for a double tap the late
    press is itself the re-arming first-key press; a second-key press
    within [W] of that arming fires. *)
Theorem sequential_timing_property (first_key second_key : Z) (t0 t1 : Q) :
  let cfg := seq_cfg first_key second_key in
  (fst (check_seq cfg (mk_seq true t0) second_key t1) = true <-> t1 - t0 <= SEQ_WINDOW) /\
  (t1 - t0 <= SEQ_WINDOW -> snd (check_seq cfg (mk_seq true t0) second_key t1) = seq_init) /\
  (SEQ_WINDOW < t1 - t0 ->
     let st1 := snd (check_seq cfg (mk_seq true t0) second_key t1) in
     fst (check_seq cfg (mk_seq true t0) second_key t1) = false /\
     (first_key <> second_key -> forall t2,
        check_seq cfg st1 first_key t2 = (false, mk_seq true t2)) /\
     (first_key = second_key -> st1 = mk_seq true t1)) /\
  (forall ta tb, tb - ta <= SEQ_WINDOW ->
     fst (check_seq cfg (mk_seq true ta) second_key tb) = true).
Proof.
  intros cfg. unfold cfg. split; [|split; [|split]].
  - rewrite check_seq_second. rewrite <- Qle_bool_iff.
    destruct (Qle_bool (t1 - t0) SEQ_WINDOW); simpl;
      [tauto | destruct (second_key =? first_key)%Z; simpl; split; discriminate].
  - intros Hle. rewrite check_seq_second. apply Qle_bool_iff in Hle. now rewrite Hle.
  - intros Hlt. rewrite check_seq_second.
    assert (Hf : Qle_bool (t1 - t0) SEQ_WINDOW = false).
    { apply not_true_iff_false. rewrite Qle_bool_iff. apply Qlt_not_le, Hlt. }
    rewrite Hf. simpl. split; [|split].
    + destruct (second_key =? first_key)%Z; reflexivity.
    + intros Hne t2.
      apply check_seq_first_other; exact Hne.
    + intros ->. now rewrite Z.eqb_refl.
  - intros ta tb Hle. rewrite check_seq_second. apply Qle_bool_iff in Hle. now rewrite Hle.
Qed.

Lemma sequential_timing_property_witness :
  fst (check_seq (seq_cfg 29 29) (mk_seq true 0) 29 (1 # 2)) = true /\
  fst (check_seq (seq_cfg 29 29) (mk_seq true 0) 29 1) = false.
Proof.
  destruct (sequential_timing_property 29 29 0 (1 # 2)) as [H1 _].
  destruct (sequential_timing_property 29 29 0 1) as [_ [_ [H3 _]]].
  split.
  - apply H1. vm_compute. discriminate.
  - apply H3. reflexivity.
Defined.

(** Consecutive tap times, each within the window of its predecessor. *)
Fixpoint taps_within (t : Q) (ts : list Q) : Prop :=
  match ts with
  | [] => True
  | t' :: ts' => t' - t <= SEQ_WINDOW /\ taps_within t' ts'
  end.

Lemma odd_seq_cons (p n : nat) :
  map Nat.odd (seq p (S n)) = Nat.odd p :: map Nat.odd (seq (S p) n).
Proof. reflexivity. Qed.

Lemma odd_succ_succ (p : nat) : Nat.odd (S (S p)) = Nat.odd p.
Proof. rewrite Nat.odd_succ, Nat.even_succ. reflexivity. Qed.

Lemma map_odd_seq_shift2 (n p : nat) :
  map Nat.odd (seq (S (S p)) n) = map Nat.odd (seq p n).
Proof.
  revert p. induction n as [|n IH]; intros p; [reflexivity|].
  rewrite !odd_seq_cons, odd_succ_succ. f_equal. apply IH.
Qed.

Lemma run_taps_cons (cfg : ShortcutConfig) (st : SeqState) (code : Z) (t : Q) (ts : list Q) :
  fst (run_taps cfg st code (t :: ts)) =
  fst (check_seq cfg st code t) :: fst (run_taps cfg (snd (check_seq cfg st code t)) code ts).
Proof.
  simpl. destruct (check_seq cfg st code t) as [f st1]. simpl.
  destruct (run_taps cfg st1 code ts). reflexivity.
Qed.

Lemma check_seq_double_unarmed (k : Z) (st : SeqState) (t : Q) :
  (armed st = false \/ SEQ_WINDOW < t - armed_time st) ->
  check_seq (seq_cfg k k) st k t = (false, mk_seq true t).
Proof.
  intros Hn. unfold check_seq; simpl. rewrite Z.eqb_refl. destruct Hn as [Ha | Hlt].
  - rewrite Ha. reflexivity.
  - assert (Hf : Qle_bool (t - armed_time st) SEQ_WINDOW = false).
    { apply not_true_iff_false. rewrite Qle_bool_iff. apply Qlt_not_le, Hlt. }
    rewrite Hf, andb_false_r. reflexivity.
Qed.

(** The two phases of a double tap: a tap that completes nothing arms,
    a tap within the window of the arming tap fires. *)
Lemma run_double_taps (k : Z) (ts : list Q) :
  forall (t : Q) (st : SeqState),
  taps_within t ts ->
  ((armed st = false \/ SEQ_WINDOW < t - armed_time st) ->
     fst (run_taps (seq_cfg k k) st k (t :: ts)) = map Nat.odd (seq 0 (S (length ts)))) /\
  (forall t0, st = mk_seq true t0 -> t - t0 <= SEQ_WINDOW ->
     fst (run_taps (seq_cfg k k) st k (t :: ts)) = map Nat.odd (seq 1 (S (length ts)))).
Proof.
  induction ts as [|t' ts IH]; intros t st Hw; split.
  - intros Hn. rewrite run_taps_cons, check_seq_double_unarmed by exact Hn. reflexivity.
  - intros t0 -> Hle. rewrite run_taps_cons, (check_seq_second k k t0 t).
    apply Qle_bool_iff in Hle. rewrite Hle. reflexivity.
  - destruct Hw as [Hle' Hw']. intros Hn.
    rewrite run_taps_cons, check_seq_double_unarmed by exact Hn. simpl snd.
    rewrite (proj2 (IH t' (mk_seq true t) Hw') t eq_refl Hle'). reflexivity.
  - destruct Hw as [Hle' Hw']. intros t0 -> Hle.
    rewrite run_taps_cons, (check_seq_second k k t0 t).
    apply Qle_bool_iff in Hle. rewrite Hle. cbn [fst snd].
    rewrite (proj1 (IH t' seq_init Hw') (or_introl eq_refl)).
    cbn [length]. rewrite (odd_seq_cons 1 (S (length ts))).
    change (seq 2 (S (length ts))) with (seq (S (S 0)) (S (length ts))).
    rewrite map_odd_seq_shift2. reflexivity.
Qed.

(** Claim C10 (double-tap fire parity): for a double-tap shortcut on key
    [k], a run of taps, each within the window of its predecessor and the
    first not completing an earlier arming, fires exactly on the 2nd, 4th,
    6th, ... tap (the i-th answer, counted from 0, is [Nat.odd i]); in
    particular the third tap does not fire. *)
Theorem double_tap_fire_parity (k : Z) (st : SeqState) (t : Q) (ts : list Q) :
  (armed st = false \/ SEQ_WINDOW < t - armed_time st) ->
  taps_within t ts ->
  fst (run_taps (seq_cfg k k) st k (t :: ts)) = map Nat.odd (seq 0 (length (t :: ts))).
Proof. intros Hn Hw. exact (proj1 (run_double_taps k ts t st Hw) Hn). Qed.

Lemma double_tap_fire_parity_witness :
  fst (run_taps (seq_cfg 29 29) seq_init 29 [0; 1 # 2; 1; 3 # 2]) = [false; true; false; true].
Proof.
  apply (double_tap_fire_parity 29 seq_init 0 [1 # 2; 1; 3 # 2]).
  - left. reflexivity.
  - vm_compute. repeat split; discriminate.
Defined.

End SeqFacts.

(** ** Proofs about the shortcut parser *)

Module ParserFacts.
Import Hotkeys.

Lemma resolve_parts_spec (parts : list string) (c : Z) :
  c ∈ resolve_parts parts <-> exists part, In part parts /\ resolve_evdev_token part = Some c.
Proof.
  induction parts as [|p ps IH]; simpl.
  - split; [set_solver | intros (? & [] & _)].
  - destruct (resolve_evdev_token p) as [c'|] eqn:E.
    + rewrite elem_of_union, elem_of_singleton, IH. split.
      * intros [-> | (q & Hq & Hr)]; [exists p; auto | exists q; auto].
      * intros (q & [-> | Hq] & Hr); [left; congruence | right; exists q; auto].
    + rewrite IH. split.
      * intros (q & Hq & Hr). exists q; auto.
      * intros (q & [-> | Hq] & Hr); [congruence | exists q; auto].
Qed.

Lemma parse_combo_branch (str : string) :
  str ≠ "" -> contains_char "," (normalize_shortcut_str str) = false ->
  let codes := resolve_parts (split "+" (normalize_shortcut_str str)) in
  combo (parse_shortcut_evdev str) = codes /\ seq_keys (parse_shortcut_evdev str) = None /\
  (codes = ∅ -> parse_shortcut_evdev str = empty_cfg).
Proof.
  intros Hne Hc codes. unfold parse_shortcut_evdev.
  rewrite (proj2 (String.eqb_neq str "") Hne), Hc. fold codes.
  destruct (bool_decide (codes = ∅)) eqn:E.
  - apply bool_decide_eq_true in E. simpl. rewrite E. auto.
  - apply bool_decide_eq_false in E. simpl. split; [reflexivity | split; [reflexivity|]].
    intros H. contradiction.
Qed.

Lemma parse_seq_branch (str : string) :
  str ≠ "" -> contains_char "," (normalize_shortcut_str str) = true ->
  let halves := split_once "," (normalize_shortcut_str str) in
  (resolve_evdev_token (fst halves) = None \/ resolve_evdev_token (snd halves) = None ->
   parse_shortcut_evdev str = empty_cfg) /\
  (forall a b, resolve_evdev_token (fst halves) = Some a ->
   resolve_evdev_token (snd halves) = Some b ->
   parse_shortcut_evdev str = mk_cfg ∅ (Some (a, b))).
Proof.
  intros Hne Hc halves. unfold parse_shortcut_evdev.
  rewrite (proj2 (String.eqb_neq str "") Hne), Hc. fold halves.
  destruct halves as [h0 h1]. simpl. split.
  - intros [-> | ->]; [reflexivity | destruct (resolve_evdev_token h0); reflexivity].
  - intros a b -> ->. reflexivity.
Qed.

Lemma toggle_down_only_toggle (s : Listener) (code : Z) (now : Q) (x : callback) :
  In x (snd (toggle_down s code now)) -> x = on_toggle.
Proof.
  unfold toggle_down; ChordFacts.unfold_setters; ChordFacts.split_blocks;
    intuition congruence.
Qed.

Lemma ptt_down_only_press (s : Listener) (code : Z) (now : Q) (x : callback) :
  In x (snd (ptt_down s code now)) -> x = on_ptt_press.
Proof.
  unfold ptt_down; ChordFacts.unfold_setters; ChordFacts.split_blocks;
    intuition congruence.
Qed.

Lemma empty_cfg_down_toggle (s : Listener) (code : Z) (now : Q) :
  toggle_cfg s = empty_cfg -> toggle_down s code now = (s, []).
Proof. intros Hc. unfold toggle_down, is_sequential, is_combo. rewrite Hc. reflexivity. Qed.

Lemma empty_cfg_down_ptt (s : Listener) (code : Z) (now : Q) :
  ptt_cfg s = empty_cfg -> ptt_down s code now = (s, []).
Proof. intros Hc. unfold ptt_down, is_sequential, is_combo. rewrite Hc. reflexivity. Qed.

Lemma empty_toggle_step (s : Listener) (ev : key_event) :
  toggle_cfg s = empty_cfg -> ~ In on_toggle (snd (handle_event s ev)).
Proof.
  intros Hc. unfold handle_event.
  destruct (negb (ev_type ev =? EV_KEY)%Z); [simpl; auto|].
  destruct (ev_value ev =? 1)%Z.
  - unfold on_key_down. rewrite empty_cfg_down_toggle by exact Hc.
    match goal with |- context [ptt_down ?x ?c ?n] =>
      pose proof (ChordFacts.ptt_down_toggle_fields x c n) as (_ & _ & P);
      destruct (ptt_down x c n) end. exact P.
  - destruct (ev_value ev =? 0)%Z; [|simpl; auto].
    unfold on_key_up.
    pose proof (ChordFacts.ptt_release_combo_toggle_fields s (normalize_key (ev_code ev)))
      as (_ & _ & _ & N1 & _).
    destruct (ptt_release_combo _ _) as [s1 o1]; simpl in N1.
    pose proof (ChordFacts.ptt_release_seq_toggle_fields s1 (normalize_key (ev_code ev)))
      as (_ & _ & _ & N2 & _).
    destruct (ptt_release_seq _ _) as [s2 o2]; simpl in *.
    rewrite in_app_iff. tauto.
Qed.

Lemma empty_ptt_step (s : Listener) (ev : key_event) :
  ptt_cfg s = empty_cfg ->
  ~ In on_ptt_press (snd (handle_event s ev)) /\ ~ In on_ptt_release (snd (handle_event s ev)).
Proof.
  intros Hc. unfold handle_event.
  destruct (negb (ev_type ev =? EV_KEY)%Z); [simpl; auto|].
  destruct (ev_value ev =? 1)%Z.
  - unfold on_key_down.
    set (s' := set_current s ({[normalize_key (ev_code ev)]} ∪ current_keys s)).
    pose proof (ChordFacts.toggle_down_ptt_fields s' (normalize_key (ev_code ev)) (ev_time ev))
      as (C1 & _).
    pose proof (toggle_down_only_toggle s' (normalize_key (ev_code ev)) (ev_time ev)) as O1.
    destruct (toggle_down _ _ _) as [s1 o1]; simpl in C1, O1.
    rewrite empty_cfg_down_ptt by (rewrite C1; exact Hc). simpl.
    rewrite app_nil_r. split; intros H; specialize (O1 _ H); discriminate.
  - destruct (ev_value ev =? 0)%Z; [|simpl; auto].
    unfold on_key_up, ptt_release_combo, ptt_release_seq, is_combo, is_sequential.
    rewrite Hc. simpl. rewrite andb_false_r. simpl. rewrite Hc. simpl.
    rewrite andb_false_r. simpl. auto.
Qed.

Lemma run_empty_bindings (evs : list key_event) :
  forall s,
  (toggle_cfg s = empty_cfg -> ~ In on_toggle (snd (run_events s evs))) /\
  (ptt_cfg s = empty_cfg ->
   ~ In on_ptt_press (snd (run_events s evs)) /\ ~ In on_ptt_release (snd (run_events s evs))).
Proof.
  induction evs as [|ev evs IH]; intros s; simpl; [auto|].
  pose proof (empty_toggle_step s ev) as T.
  pose proof (empty_ptt_step s ev) as P.
  pose proof (ChordFacts.handle_event_cfgs s ev) as [C1 C2].
  destruct (handle_event s ev) as [s1 o1]; simpl in *.
  destruct (IH s1) as [IT IP].
  destruct (run_events s1 evs) as [s2 o2]; simpl in *.
  split.
  - intros Hc. rewrite in_app_iff. specialize (T Hc). specialize (IT ltac:(congruence)).
    tauto.
  - intros Hc. rewrite !in_app_iff. specialize (P Hc). specialize (IP ltac:(congruence)).
    tauto.
Qed.

(** Claim C9 (parser graceful degradation): [parse_shortcut_evdev] is a
    total function of the string.  For a [+]-combo its key set is exactly
    the set of codes of the parts that resolve (unknown parts are dropped),
    and when no part resolves the result is the empty shortcut; a
    sequential spec with an unresolved half is the empty shortcut; the
    empty string gives the empty shortcut; and an empty shortcut, bound as
    toggle or as push-to-talk, never fires on any event stream. *)
Theorem parser_graceful_degradation :
  parse_shortcut_evdev "" = empty_cfg /\
  (forall str, str ≠ "" -> contains_char "," (normalize_shortcut_str str) = false ->
     (forall c, c ∈ combo (parse_shortcut_evdev str) <->
        exists part, In part (split "+" (normalize_shortcut_str str)) /\
                     resolve_evdev_token part = Some c) /\
     seq_keys (parse_shortcut_evdev str) = None /\
     ((forall part, In part (split "+" (normalize_shortcut_str str)) ->
                    resolve_evdev_token part = None) ->
      parse_shortcut_evdev str = empty_cfg)) /\
  (forall str, str ≠ "" -> contains_char "," (normalize_shortcut_str str) = true ->
     let halves := split_once "," (normalize_shortcut_str str) in
     resolve_evdev_token (fst halves) = None \/ resolve_evdev_token (snd halves) = None ->
     parse_shortcut_evdev str = empty_cfg) /\
  (forall s evs, toggle_cfg s = empty_cfg -> ~ In on_toggle (snd (run_events s evs))) /\
  (forall s evs, ptt_cfg s = empty_cfg ->
     ~ In on_ptt_press (snd (run_events s evs)) /\
     ~ In on_ptt_release (snd (run_events s evs))).
Proof.
  split; [reflexivity|]. split; [|split; [|split]].
  - intros str Hne Hc.
    destruct (parse_combo_branch str Hne Hc) as (E1 & E2 & E3).
    split; [|split; [exact E2|]].
    + intros c. rewrite E1. apply resolve_parts_spec.
    + intros Hnone. apply E3. apply set_eq. intros c.
      rewrite resolve_parts_spec. split; [|set_solver].
      intros (part & Hin & Hr). rewrite (Hnone part Hin) in Hr. discriminate.
  - intros str Hne Hc halves Hh. exact (proj1 (parse_seq_branch str Hne Hc) Hh).
  - intros s evs Hc. exact (proj1 (run_empty_bindings evs s) Hc).
  - intros s evs Hc. exact (proj2 (run_empty_bindings evs s) Hc).
Qed.

Lemma parser_graceful_degradation_witness :
  parse_shortcut_evdev "<bogus>+<nonsense>" = empty_cfg /\
  parse_shortcut_evdev "a,<bogus>" = empty_cfg.
Proof.
  destruct parser_graceful_degradation as (_ & Hc & Hs & _).
  split.
  - apply (Hc "<bogus>+<nonsense>"); [discriminate | reflexivity |].
    intros part Hin. vm_compute in Hin.
    destruct Hin as [<- | [<- | []]]; reflexivity.
  - apply (Hs "a,<bogus>"); [discriminate | reflexivity | right; reflexivity].
Defined.

End ParserFacts.

(** ** Reset of the recognition state by [set_shortcuts] and [stop] *)

Module ResetFacts.
Import Hotkeys.

(** Every piece of transient recognition state at its initial value. *)
Definition transient_cleared (s : Listener) : Prop :=
  current_keys s = ∅ /\ toggle_seq s = seq_init /\ ptt_seq s = seq_init /\
  toggle_combo_active s = false /\ ptt_combo_active s = false.

Lemma init_listener_cleared : transient_cleared init_listener.
Proof. repeat split. Qed.

(** Ctrl and V held, the toggle chord latched, then the shortcuts are
    reconfigured. *)
Definition latched_then_reconfigured : Listener :=
  set_shortcuts
    (fst (run_events (set_shortcuts init_listener "<ctrl>+v" "")
                     [ChordFacts.key_down 29 0; ChordFacts.key_down 47 0]))
    "<ctrl>+b" "".

(** Claim C5, as stated, fails: after [set_shortcuts] the held keys and
    the combo latch of the toggle binding keep their values. *)
Lemma binding_state_reset_counterexample :
  ~ (forall s t p, transient_cleared (set_shortcuts s t p) /\ transient_cleared (stop s)).
Proof.
  intros H. destruct (H (fst (run_events (set_shortcuts init_listener "<ctrl>+v" "")
                     [ChordFacts.key_down 29 0; ChordFacts.key_down 47 0]))
                     "<ctrl>+b" "") as [(_ & _ & _ & Ht & _) _].
  vm_compute in Ht. discriminate.
Qed.

Example latched_then_reconfigured_state :
  toggle_combo_active latched_then_reconfigured = true /\
  elements (current_keys latched_then_reconfigured) ≠ [].
Proof. vm_compute. split; [reflexivity | discriminate]. Qed.

(** Claim C5, amended: [stop] returns every piece of transient state
    (held keys, both sequential armed flags and timestamps, both combo
    latches) to its initial value and keeps the parsed shortcuts;
    [set_shortcuts] installs the newly parsed shortcuts and returns the
    sequential armed flag and timestamp of both bindings to their initial
    values, leaving the held-key set as it was. *)
Theorem binding_state_reset (s : Listener) (toggle_shortcut ptt_shortcut : string) :
  (transient_cleared (stop s) /\
   toggle_cfg (stop s) = toggle_cfg s /\ ptt_cfg (stop s) = ptt_cfg s) /\
  (let s' := set_shortcuts s toggle_shortcut ptt_shortcut in
   toggle_seq s' = toggle_seq init_listener /\ ptt_seq s' = ptt_seq init_listener /\
   current_keys s' = current_keys s /\
   toggle_cfg s' = parse_shortcut_evdev toggle_shortcut /\
   ptt_cfg s' = parse_shortcut_evdev ptt_shortcut).
Proof.
  split.
  - unfold transient_cleared, stop. simpl. repeat split.
  - unfold set_shortcuts. simpl. repeat split.
Qed.

End ResetFacts.

(** ** Proofs about the session lifecycle and the audio contract *)

Module SessionFacts.
Import Session.

(** A fresh transcriber ([__init__]) with a credential and an error
    callback. *)
Definition fresh (key : string) : session :=
  mk_session key "" false None None None "" true.

Definition world0 (finishes : nat -> Q -> bool) : world :=
  mk_world ∅ 1 finishes.

(** Claim C8 (send_audio outside streaming): when the session is not
    running, or has no connection or no event loop yet, [send_audio]
    sends nothing and changes nothing; in particular after [stop], in
    both its blocking and non-blocking forms. *)
Theorem send_audio_outside_streaming (s : session) (pcm : list Byte.byte) :
  (running s = false \/ ws s = None \/ loop s = None -> send_audio s pcm = (s, [])) /\
  (forall w blocking lr, send_audio (snd (fst (stop w s blocking lr))) pcm
                         = (snd (fst (stop w s blocking lr)), [])).
Proof.
  split.
  - unfold send_audio. intros [-> | [-> | ->]]; simpl; [reflexivity | |].
    + destruct (running s); reflexivity.
    + destruct (running s), (ws s); reflexivity.
  - intros w blocking lr. unfold stop.
    destruct blocking, (thread s); reflexivity.
Qed.

Lemma send_audio_outside_streaming_witness :
  send_audio (fresh "k") [Byte.x00; Byte.x01] = (fresh "k", []).
Proof.
  apply (proj1 (send_audio_outside_streaming (fresh "k") [Byte.x00; Byte.x01])).
  left. reflexivity.
Defined.

(** A session whose credential was cleared while it runs. *)
Definition running_without_key : session :=
  mk_session "" "" true (Some 7) (Some 8) (Some 1) "" true.

(** Claim C7, as stated, fails: a running session whose credential has
    been cleared gets no configuration error from [start] and stays
    running. *)
Lemma missing_credential_start_counterexample :
  ~ (forall w s, api_key s = "" ->
       In (ErrorCallback key_not_set_msg) (snd (start w s)) /\
       running (snd (fst (start w s))) = false).
Proof.
  intros H. destruct (H (world0 (fun _ _ => true)) running_without_key eq_refl) as [Hin _].
  exact Hin.
Qed.

(** Claim C7, amended: for a session that is not running and whose
    credential is empty, [start] invokes the error callback (when one is
    set) with the configuration error and does nothing else: no thread is
    joined or created and the session stays not running; on a running
    session [start] is a no-op, whatever its credential. *)
Theorem missing_credential_start (w : world) (s : session) :
  (running s = false -> api_key s = "" ->
     start w s = (w, s, if has_on_error s then [ErrorCallback key_not_set_msg] else [])) /\
  (running s = true -> start w s = (w, s, [])).
Proof.
  unfold start. split.
  - intros -> ->. reflexivity.
  - intros ->. reflexivity.
Qed.

Lemma missing_credential_start_witness :
  start (world0 (fun _ _ => true)) (fresh "")
  = (world0 (fun _ _ => true), fresh "", [ErrorCallback key_not_set_msg]).
Proof. apply (proj1 (missing_credential_start (world0 (fun _ _ => true)) (fresh ""))); reflexivity. Defined.

(** start, connect, non-blocking stop, start again: the first session's
    thread (1) never finishes within the 2-second join. *)
Definition restart_scenario : world * session * list effect :=
  let '(w1, s1, _) := start (world0 (fun _ _ => false)) (fresh "key") in
  let s2 := connected s1 7 8 in
  let '(w3, s3, _) := stop w1 s2 false true in
  start w3 s3.

(** Claim C6, as stated, fails: after the restart both the unwinding
    thread of the first session and the new session's thread are alive. *)
Lemma session_reentrancy_counterexample :
  1 ∈ alive (fst (fst restart_scenario)) /\ 2 ∈ alive (fst (fst restart_scenario)) /\
  thread (snd (fst restart_scenario)) = Some 2.
Proof. vm_compute. split; [set_solver | split; [set_solver | reflexivity]]. Qed.

(** Claim C6, amended: when [start] (not running, credential set) finds
    the previous thread [t] still alive, it joins it with a 2-second
    timeout and then starts a new thread regardless; afterwards [t] is
    gone iff it terminated within those 2 seconds, and the new thread,
    distinct from [t], is alive and recorded as the session's thread. *)
Theorem session_reentrancy (w : world) (s : session) (t : nat) :
  running s = false -> api_key s <> "" -> thread s = Some t -> t ∈ alive w ->
  t < next_tid w ->
  let '(w', s', effs) := start w s in
  effs = [JoinThread t 2; StartThread (next_tid w)] /\
  thread s' = Some (next_tid w) /\ running s' = true /\
  next_tid w ∈ alive w' /\ next_tid w <> t /\
  (t ∈ alive w' <-> finishes_within w t 2 = false).
Proof.
  intros Hr Hk Ht Ha Hlt. unfold start.
  rewrite Hr, (proj2 (String.eqb_neq _ _) Hk), Ht, bool_decide_true by exact Ha.
  unfold join, spawn. destruct (finishes_within w t 2) eqn:F; simpl.
  - repeat split; [set_solver | lia | |].
    + intros Hin. exfalso. apply elem_of_union in Hin as [Hin | Hin].
      * apply elem_of_singleton in Hin. lia.
      * set_solver.
    + discriminate.
  - repeat split; [set_solver | lia | set_solver].
Qed.

Lemma session_reentrancy_witness :
  let s := mk_session "key" "" false None None (Some 1) "" true in
  let w := mk_world {[1]} 2 (fun _ _ => false) in
  let '(w', s', effs) := start w s in
  effs = [JoinThread 1 2; StartThread 2] /\ thread s' = Some 2 /\ running s' = true /\
  2 ∈ alive w' /\ 2 <> 1 /\ (1 ∈ alive w' <-> false = false).
Proof.
  apply (session_reentrancy (mk_world {[1]} 2 (fun _ _ => false))
           (mk_session "key" "" false None None (Some 1) "" true) 1);
    simpl; [reflexivity | discriminate | reflexivity | set_solver | lia].
Defined.

(** Claim C4 (audio sample-rate contract), evaluated on the code: every
    chunk forwarded by the recorder is at [TARGET_RATE] = 24000 Hz, while
    the configuration message declares 16000 Hz. *)
Theorem audio_sample_rate_mismatch (s : session) (device_rate : Z) :
  Audio.chunk_rate device_rate = 24000%Z /\
  cfg_sample_rate (send_config s) = 16000%Z /\
  Audio.chunk_rate device_rate <> cfg_sample_rate (send_config s).
Proof.
  unfold Audio.chunk_rate, Audio.TARGET_RATE, send_config. simpl.
  destruct (device_rate =? 24000)%Z eqn:E.
  - apply Z.eqb_eq in E. subst. split; [reflexivity | split; [reflexivity | discriminate]].
  - split; [reflexivity | split; [reflexivity | discriminate]].
Qed.

End SessionFacts.

(** ** Proofs about the control messages and the response loop *)

Module StreamFacts.
Import Transcriber Session Stream.

(** A frame after which [_listen] reads nothing more: [_running] was
    cleared, or an error-free response has [finished] set. *)
Definition ends_loop (x : bool * frame) : bool :=
  let '(run, f) := x in
  negb run || match f with
              | Decoded r => (error_code r =? "") && finished r
              | Undecodable => false
              end.

(** The token lists [_listen] hands to [_process_tokens] (including the
    empty ones it skips), and the error texts of the error responses it
    reports, up to the end of the loop. *)
Fixpoint processed (frames : list (bool * frame)) : list (list token) :=
  match frames with
  | [] => []
  | (run, f) :: fs =>
      if negb run then []
      else match f with
           | Undecodable => processed fs
           | Decoded r =>
               if negb (error_code r =? "") then processed fs
               else if finished r then [tokens r] else tokens r :: processed fs
           end
  end.

Fixpoint reported (frames : list (bool * frame)) : list string :=
  match frames with
  | [] => []
  | (run, f) :: fs =>
      if negb run then []
      else match f with
           | Undecodable => reported fs
           | Decoded r =>
               if negb (error_code r =? "") then error_text r :: reported fs
               else if finished r then [] else reported fs
           end
  end.

Fixpoint texts (out : list listen_out) : list instr :=
  match out with
  | [] => []
  | OnText i :: o => i :: texts o
  | OnError _ :: o => texts o
  end.

Fixpoint errors (out : list listen_out) : list string :=
  match out with
  | [] => []
  | OnText _ :: o => errors o
  | OnError m :: o => m :: errors o
  end.

Lemma texts_app (a b : list listen_out) : texts (a ++ b) = (texts a ++ texts b)%list.
Proof. induction a as [|[] a IH]; simpl; congruence. Qed.

Lemma errors_app (a b : list listen_out) : errors (a ++ b) = (errors a ++ errors b)%list.
Proof. induction a as [|[] a IH]; simpl; congruence. Qed.

Lemma texts_opt (o : option instr) :
  texts (opt_text o) = match o with Some i => [i] | None => [] end.
Proof. destruct o; reflexivity. Qed.

Lemma errors_opt (o : option instr) : errors (opt_text o) = [].
Proof. destruct o; reflexivity. Qed.

Lemma process_tokens_nil (st : string) : process_tokens st [] = (None, st).
Proof. reflexivity. Qed.

Lemma tokens_step (st : string) (ts : list token) :
  match ts with [] => (None, st) | t :: l => process_tokens st (t :: l) end
  = process_tokens st ts.
Proof. destruct ts; reflexivity. Qed.

(** [_listen] is the reconciler run on the token lists it processes, and
    reports the error responses it reads. *)
Lemma listen_run_batches (b : bool) (frames : list (bool * frame)) :
  forall st,
  texts (fst (listen b st frames)) = fst (run_batches st (processed frames)) /\
  snd (listen b st frames) = snd (run_batches st (processed frames)) /\
  errors (fst (listen b st frames)) = if b then reported frames else [].
Proof.
  induction frames as [|[run f] fs IH]; intros st; simpl.
  - destruct b; auto.
  - destruct run; simpl; [|destruct b; auto].
    destruct f as [|r]; [apply IH|].
    destruct (negb (error_code r =? "")) eqn:E.
    + destruct (IH st) as (I1 & I2 & I3).
      destruct (listen b st fs) as [out st'] eqn:L. simpl in *.
      rewrite texts_app, errors_app. destruct b; simpl; repeat split; congruence.
    + rewrite tokens_step.
      destruct (process_tokens st (tokens r)) as [o st1] eqn:P.
      destruct (finished r).
      * simpl. rewrite P. destruct o; simpl; destruct b; auto.
      * destruct (IH st1) as (I1 & I2 & I3).
        destruct (listen b st1 fs) as [out st'] eqn:L. simpl in *.
        rewrite P. destruct (run_batches st1 (processed fs)) as [is st''] eqn:R.
        simpl in *. rewrite texts_app, errors_app, texts_opt, errors_opt.
        destruct o; simpl; rewrite I1; auto.
Qed.

(** A session that has only just started tracks no provisional text, so
    its first correction erases nothing. *)
Lemma run_batches_first_erase (bs : list (list token)) (i : instr) (rest : list instr) :
  fst (run_batches "" bs) = i :: rest -> snd i = 0.
Proof.
  induction bs as [|b bs IH]; simpl; [discriminate|].
  destruct (process_tokens "" b) as [o st1] eqn:P.
  destruct (run_batches st1 bs) as [is st'] eqn:R. simpl.
  unfold process_tokens in P.
  destruct ((final_text b =? "") && (nonfinal_text b =? "")).
  - injection P as <- <-. rewrite R in IH. exact IH.
  - destruct (Nat.ltb 0 (String.length "")
              || negb (String.append (final_text b) (nonfinal_text b) =? "")) eqn:G.
    + injection P as <- <-. intros H. injection H as <- _. reflexivity.
    + injection P as <- <-. simpl in G.
      apply negb_false_iff, Str.eqb_empty in G.
      destruct (final_text b); [|discriminate]. simpl in G. rewrite G in R.
      rewrite R in IH. exact IH.
Qed.

Lemma stop_fields (w : world) (s : session) (blocking lr : bool) :
  running (snd (fst (stop w s blocking lr))) = false /\
  (blocking = true -> thread s <> None ->
   ws (snd (fst (stop w s blocking lr))) = None /\
   loop (snd (fst (stop w s blocking lr))) = None /\
   thread (snd (fst (stop w s blocking lr))) = None).
Proof.
  unfold stop. destruct blocking, (thread s); simpl; split; auto;
    intros ? ?; congruence.
Qed.

(** [stop()], in both forms, silences the control messages and makes
    [is_connected] false; the blocking form with a thread also forgets
    the connection, the event loop and the thread. *)
Theorem stop_silences_control (w : world) (s : session) (blocking lr : bool) :
  let s' := snd (fst (stop w s blocking lr)) in
  finalize s' = [] /\ send_eof s' = [] /\ is_connected s' = false /\
  (blocking = true -> thread s <> None ->
   ws s' = None /\ loop s' = None /\ thread s' = None).
Proof.
  intros s'. destruct (stop_fields w s blocking lr) as [R B].
  unfold finalize, send_eof, send_text, is_connected. fold s' in R, B.
  rewrite R. simpl. auto.
Qed.

Lemma stop_silences_control_witness :
  let s := mk_session "k" "" true (Some 7) (Some 8) (Some 1) "" true in
  let s' := snd (fst (stop (SessionFacts.world0 (fun _ _ => true)) s true true)) in
  finalize s' = [] /\ send_eof s' = [] /\ is_connected s' = false /\
  (true = true -> Some 1 <> None -> ws s' = None /\ loop s' = None /\ thread s' = None).
Proof.
  exact (stop_silences_control (SessionFacts.world0 (fun _ _ => true))
           (mk_session "k" "" true (Some 7) (Some 8) (Some 1) "" true) true true).
Defined.



(** [_listen] reads nothing after a frame that ends the loop: later
    frames change neither the callbacks invoked nor the tracked
    provisional text. *)
Theorem listen_stops_at_end (b : bool) (st : string) (pre post : list (bool * frame))
  (x : bool * frame) :
  ends_loop x = true ->
  listen b st (pre ++ x :: post) = listen b st (pre ++ [x]).
Proof.
  intros Hx. revert st. induction pre as [|[run f] pre IH]; intros st; simpl.
  - destruct x as [run f]. simpl in Hx.
    destruct run; simpl; [|reflexivity].
    destruct f as [|r]; [discriminate|].
    apply andb_prop in Hx as [He Hf]. rewrite He, Hf. simpl.
    rewrite tokens_step. destruct (process_tokens st (tokens r)). reflexivity.
  - destruct run; simpl; [|reflexivity].
    destruct f as [|r]; [apply IH|].
    destruct (negb (error_code r =? "")); [now rewrite IH|].
    rewrite tokens_step. destruct (process_tokens st (tokens r)) as [o st1].
    destruct (finished r); [reflexivity|]. now rewrite IH.
Qed.

Lemma listen_stops_at_end_witness :
  let fin := (true, Decoded (mk_response "" "" [mk_token "hi" true] true)) in
  let late := (true, Decoded (mk_response "" "" [mk_token " there" true] false)) in
  ends_loop fin = true /\
  listen true "" ([] ++ fin :: [late]) = listen true "" ([] ++ [fin]).
Proof.
  split; [reflexivity|].
  apply listen_stops_at_end. reflexivity.
Defined.

(** [_listen] runs the token reconciler on the token lists of the
    error-free responses it reads before the loop ends, skipping
    undecodable frames and error responses (whose tokens it ignores); it
    reports each error response, in order, as "code - message" when an
    error callback is set. *)
Theorem listen_reconciles_processed (b : bool) (st : string) (frames : list (bool * frame)) :
  texts (fst (listen b st frames)) = fst (run_batches st (processed frames)) /\
  snd (listen b st frames) = snd (run_batches st (processed frames)) /\
  errors (fst (listen b st frames)) = if b then reported frames else [].
Proof. apply listen_run_batches. Qed.

(** The correction law over a whole response stream: applying the text
    corrections [_listen] emits, from a fresh tracked text, to an empty
    buffer gives the final text of the responses it processed followed
    by the provisional text of the latest one that produced a
    correction. *)
Theorem listen_correction_law (b : bool) (frames : list (bool * frame)) :
  apply_all "" (texts (fst (listen b "" frames)))
  = String.append (final_so_far (processed frames)) (last_nonfinal "" (processed frames)) /\
  snd (listen b "" frames) = last_nonfinal "" (processed frames).
Proof.
  destruct (listen_run_batches b frames "") as (T & S & _).
  destruct (TranscriberFacts.run_batches_buffer (processed frames) "" "") as [B1 B2].
  rewrite T, S. split; [exact B1 | exact B2].
Qed.

(** [start()] on a stopped session with a credential clears the tracked
    provisional text, so the first correction of the new session never
    erases text typed during an earlier one. *)
Theorem start_fresh_tracking (w : world) (s : session) (b : bool)
  (frames : list (bool * frame)) :
  running s = false -> api_key s <> "" ->
  let s' := snd (fst (start w s)) in
  running s' = true /\ nonfinal_typed_text s' = "" /\
  forall i rest, texts (fst (listen b (nonfinal_typed_text s') frames)) = i :: rest ->
  snd i = 0.
Proof.
  intros Hr Hk s'.
  assert (E : running s' = true /\ nonfinal_typed_text s' = "").
  { subst s'. unfold start. rewrite Hr, (proj2 (String.eqb_neq _ _) Hk).
    destruct (match thread s with
              | Some t => if bool_decide (t ∈ alive w) then (join w t 2, [JoinThread t 2])
                          else (w, [])
              | None => (w, []) end) as [w1 effs].
    destruct (spawn w1). split; reflexivity. }
  destruct E as [E1 E2]. split; [exact E1|]. split; [exact E2|].
  intros i rest H. rewrite E2 in H.
  rewrite (proj1 (listen_run_batches b frames "")) in H.
  exact (run_batches_first_erase _ i rest H).
Qed.

Lemma start_fresh_tracking_witness :
  let s := mk_session "key" "" false None None None "stale" true in
  let s' := snd (fst (start (SessionFacts.world0 (fun _ _ => true)) s)) in
  running s' = true /\ nonfinal_typed_text s' = "" /\
  forall i rest, texts (fst (listen true (nonfinal_typed_text s')
                   [(true, Decoded (mk_response "" "" [mk_token "a" false] false))]))
                 = i :: rest -> snd i = 0.
Proof.
  apply (start_fresh_tracking (SessionFacts.world0 (fun _ _ => true))
           (mk_session "key" "" false None None None "stale" true)); [reflexivity | discriminate].
Defined.

End StreamFacts.

(** ** Proofs about [needs_evdev] and the legacy and case handling of the
    parser *)

Module WarnFacts.
Import Hotkeys Warn.
















Lemma normalize_plain (s : string) :
  startswith "2x" s = false -> normalize_shortcut_str s = s.
Proof. unfold normalize_shortcut_str. now intros ->. Qed.

Lemma substring_all (t : string) : String.substring 0 (String.length t) t = t.
Proof.
  pose proof (Str.substring_prefix t "") as H. now rewrite Str.app_nil_r in H.
Qed.

Lemma normalize_legacy (t : string) :
  normalize_shortcut_str (String.append "2x" t) = String.append t (String "," t).
Proof.
  unfold normalize_shortcut_str.
  replace (startswith "2x" (String.append "2x" t)) with true by reflexivity.
  change (String.length (String.append "2x" t)) with (S (S (String.length t))).
  replace (S (S (String.length t)) - 2) with (String.length t) by lia.
  cbn [String.append String.substring]. now rewrite substring_all.
Qed.

Lemma startswith_doubled (t : string) :
  startswith "2x" t = false -> startswith "2x" (String.append t (String "," t)) = false.
Proof.
  destruct t as [|a [|b t]]; cbn [String.append startswith]; intros H.
  - reflexivity.
  - rewrite andb_false_r. reflexivity.
  - exact H.
Qed.

Lemma contains_char_middle (c : ascii) (a b : string) :
  contains_char c (String.append a (String c b)) = true.
Proof.
  induction a as [|d a IH]; cbn [String.append contains_char].
  - now rewrite Ascii.eqb_refl.
  - now rewrite IH, orb_true_r.
Qed.

Lemma parse_via_normal (s : string) :
  s ≠ "" ->
  parse_shortcut_evdev s =
  (let s0 := normalize_shortcut_str s in
   if contains_char "," s0 then
     let '(h0, h1) := split_once "," s0 in
     match resolve_evdev_token h0, resolve_evdev_token h1 with
     | Some first, Some second => mk_cfg ∅ (Some (first, second))
     | _, _ => empty_cfg
     end
   else
     let codes := resolve_parts (split "+" s0) in
     if bool_decide (codes = ∅) then empty_cfg else mk_cfg codes None).
Proof. intros H. unfold parse_shortcut_evdev. now rewrite (proj2 (String.eqb_neq s "") H). Qed.

(** A sequential parse means the normalised string has a comma. *)
Lemma parse_sequential_comma (s : string) :
  is_sequential (parse_shortcut_evdev s) = true ->
  s ≠ "" /\ contains_char "," (normalize_shortcut_str s) = true.
Proof.
  intros H. destruct (String.eqb_spec s "") as [->|Hne]; [discriminate|].
  split; [exact Hne|].
  destruct (contains_char "," (normalize_shortcut_str s)) eqn:C; [reflexivity|].
  destruct (ParserFacts.parse_combo_branch s Hne C) as (_ & E & _).
  unfold is_sequential in H. rewrite E in H. discriminate.
Qed.

Lemma modifier_token_resolves (p : string) :
  existsb (String.eqb (lower (strip p))) MODIFIER_TOKENS = true ->
  exists m, resolve_evdev_token p = Some m /\ m ∈ ({[29%Z; 42%Z; 56%Z; 125%Z]} : gset Z).
Proof.
  intros H. unfold resolve_evdev_token.
  simpl in H.
  repeat (apply orb_true_iff in H as [H|H]);
    try (apply String.eqb_eq in H; rewrite H; eexists; split; [reflexivity | set_solver]).
  discriminate.
Qed.

(** The legacy double-tap form ["2x<token>"] parses as the sequential
    shortcut ["<token>,<token>"] and always needs evdev. *)
Theorem legacy_double_tap (t : string) :
  startswith "2x" t = false ->
  parse_shortcut_evdev (String.append "2x" t) = parse_shortcut_evdev (String.append t (String "," t)) /\
  needs_evdev (String.append "2x" t) = true.
Proof.
  intros Ht. split.
  - assert (N1 : String.append t (String "," t) ≠ "") by (destruct t; discriminate).
    rewrite (parse_via_normal (String.append "2x" t)) by discriminate.
    rewrite (parse_via_normal _ N1).
    rewrite normalize_legacy, (normalize_plain _ (startswith_doubled t Ht)). reflexivity.
  - unfold needs_evdev. simpl String.eqb. rewrite normalize_legacy.
    rewrite contains_char_middle. reflexivity.
Qed.

Lemma legacy_double_tap_witness :
  startswith "2x" "<f9>" = false /\
  parse_shortcut_evdev (String.append "2x" "<f9>") = parse_shortcut_evdev "<f9>,<f9>" /\
  needs_evdev (String.append "2x" "<f9>") = true.
Proof. split; [reflexivity | apply (legacy_double_tap "<f9>"); reflexivity]. Defined.

(** Every shortcut that parses as sequential is flagged by
    [needs_evdev]; a non-empty shortcut that [needs_evdev] accepts for
    pynput parses, on evdev, as a chord that holds a left modifier key
    (Ctrl 29, Shift 42, Alt 56 or Super 125). *)
Theorem needs_evdev_parse (s : string) :
  (is_sequential (parse_shortcut_evdev s) = true -> needs_evdev s = true) /\
  (s ≠ "" -> needs_evdev s = false ->
   seq_keys (parse_shortcut_evdev s) = None /\
   exists m, m ∈ combo (parse_shortcut_evdev s) /\ m ∈ ({[29%Z; 42%Z; 56%Z; 125%Z]} : gset Z)).
Proof.
  split.
  - intros H. destruct (parse_sequential_comma s H) as [Hne C].
    unfold needs_evdev. rewrite (proj2 (String.eqb_neq s "") Hne), C. reflexivity.
  - intros Hne H. unfold needs_evdev in H.
    rewrite (proj2 (String.eqb_neq s "") Hne) in H.
    destruct (contains_char "," (normalize_shortcut_str s)) eqn:C; [discriminate|].
    apply negb_false_iff, existsb_exists in H as (q & Hq & Hm).
    apply in_map_iff in Hq as (p & <- & Hp).
    destruct (modifier_token_resolves p Hm) as (m & Hr & Hmod).
    destruct (ParserFacts.parse_combo_branch s Hne C) as (E1 & E2 & _).
    split; [exact E2|]. exists m. split; [|exact Hmod].
    rewrite E1. apply ParserFacts.resolve_parts_spec. exists p. auto.
Qed.

Lemma needs_evdev_parse_witness :
  (is_sequential (parse_shortcut_evdev "a,b") = true -> needs_evdev "a,b" = true) /\
  seq_keys (parse_shortcut_evdev "<ctrl>+v") = None /\
  exists m, m ∈ combo (parse_shortcut_evdev "<ctrl>+v") /\ m ∈ ({[29%Z; 42%Z; 56%Z; 125%Z]} : gset Z).
Proof.
  split; [exact (proj1 (needs_evdev_parse "a,b"))|].
  apply (proj2 (needs_evdev_parse "<ctrl>+v")); [discriminate | reflexivity].
Defined.



End WarnFacts.

(** ** Invariants of the recognition engine *)

Module EngineFacts.
Import Hotkeys.

(** The push-to-talk callbacks of a trace, read against the PTT latch:
    a press needs the latch clear and sets it, a release needs it set and
    clears it; [None] when the trace breaks this. *)
Fixpoint ptt_trace (latched : bool) (cs : list callback) : option bool :=
  match cs with
  | [] => Some latched
  | on_toggle :: r => ptt_trace latched r
  | on_ptt_press :: r => if latched then None else ptt_trace true r
  | on_ptt_release :: r => if latched then ptt_trace false r else None
  end.

Definition keys_normalized (k : gset Z) : Prop := forall c, c ∈ k -> normalize_key c = c.

Lemma normalize_key_idem (c : Z) : normalize_key (normalize_key c) = normalize_key c.
Proof.
  unfold normalize_key, EVDEV_MODIFIER_PAIRS. cbn [find fst].
  destruct (97 =? c)%Z eqn:E1; [reflexivity|].
  destruct (54 =? c)%Z eqn:E2; [reflexivity|].
  destruct (100 =? c)%Z eqn:E3; [reflexivity|].
  destruct (126 =? c)%Z eqn:E4; [reflexivity|].
  now rewrite E1, E2, E3, E4.
Qed.

Lemma ptt_trace_app (b : bool) (l1 l2 : list callback) :
  ptt_trace b (l1 ++ l2) =
  match ptt_trace b l1 with Some b' => ptt_trace b' l2 | None => None end.
Proof.
  revert b. induction l1 as [|[] l1 IH]; intros b; simpl; auto; destruct b; auto.
Qed.

Lemma ptt_trace_toggles (b : bool) (cs : list callback) :
  (forall x, In x cs -> x = on_toggle) -> ptt_trace b cs = Some b.
Proof.
  induction cs as [|x cs IH]; intros H; simpl; [reflexivity|].
  rewrite (H x (or_introl eq_refl)). apply IH. intros y Hy. apply H. now right.
Qed.

Lemma ptt_down_trace (s : Listener) (code : Z) (now : Q) :
  ptt_trace (ptt_combo_active s) (snd (ptt_down s code now))
  = Some (ptt_combo_active (fst (ptt_down s code now))) /\
  current_keys (fst (ptt_down s code now)) = current_keys s.
Proof.
  unfold ptt_down; ChordFacts.unfold_setters; ChordFacts.split_blocks;
    try (split; reflexivity); intuition congruence.
Qed.

Lemma toggle_down_keys (s : Listener) (code : Z) (now : Q) :
  current_keys (fst (toggle_down s code now)) = current_keys s.
Proof. apply (ChordFacts.toggle_down_ptt_fields s code now). Qed.

Lemma ptt_release_combo_trace (s : Listener) (code : Z) :
  ptt_trace (ptt_combo_active s) (snd (ptt_release_combo s code))
  = Some (ptt_combo_active (fst (ptt_release_combo s code))) /\
  current_keys (fst (ptt_release_combo s code)) = current_keys s.
Proof.
  unfold ptt_release_combo; ChordFacts.unfold_setters; ChordFacts.split_blocks;
    try (split; reflexivity); intuition congruence.
Qed.

Lemma ptt_release_seq_trace (s : Listener) (code : Z) :
  ptt_trace (ptt_combo_active s) (snd (ptt_release_seq s code))
  = Some (ptt_combo_active (fst (ptt_release_seq s code))) /\
  current_keys (fst (ptt_release_seq s code)) = current_keys s.
Proof.
  unfold ptt_release_seq; ChordFacts.unfold_setters; ChordFacts.split_blocks;
    try (split; reflexivity); intuition congruence.
Qed.

Lemma toggle_latch_reset_keys (s : Listener) (code : Z) :
  current_keys (toggle_latch_reset s code) = current_keys s.
Proof. unfold toggle_latch_reset; ChordFacts.unfold_setters; ChordFacts.split_blocks; auto. Qed.

Lemma handle_event_trace (s : Listener) (ev : key_event) :
  ptt_trace (ptt_combo_active s) (snd (handle_event s ev))
  = Some (ptt_combo_active (fst (handle_event s ev))).
Proof.
  unfold handle_event.
  destruct (negb (ev_type ev =? EV_KEY)%Z); [reflexivity|].
  destruct (ev_value ev =? 1)%Z.
  - unfold on_key_down.
    set (s' := set_current s ({[normalize_key (ev_code ev)]} ∪ current_keys s)).
    pose proof (ChordFacts.toggle_down_ptt_fields s' (normalize_key (ev_code ev)) (ev_time ev))
      as (_ & A1 & _).
    pose proof (ParserFacts.toggle_down_only_toggle s' (normalize_key (ev_code ev))
                  (ev_time ev)) as O1.
    destruct (toggle_down _ _ _) as [s1 o1]; simpl in A1, O1.
    pose proof (ptt_down_trace s1 (normalize_key (ev_code ev)) (ev_time ev)) as [P _].
    destruct (ptt_down _ _ _) as [s2 o2]; simpl in P |- *.
    rewrite ptt_trace_app, ptt_trace_toggles by exact O1.
    rewrite A1 in P. exact P.
  - destruct (ev_value ev =? 0)%Z; [|reflexivity].
    unfold on_key_up.
    pose proof (ptt_release_combo_trace s (normalize_key (ev_code ev))) as [P1 _].
    destruct (ptt_release_combo _ _) as [s1 o1]; simpl in P1.
    pose proof (ptt_release_seq_trace s1 (normalize_key (ev_code ev))) as [P2 _].
    destruct (ptt_release_seq _ _) as [s2 o2]; simpl in P2 |- *.
    pose proof (ChordFacts.toggle_latch_reset_fields s2 (normalize_key (ev_code ev)))
      as (_ & _ & A3).
    rewrite ptt_trace_app, P1, P2. simpl. now rewrite A3.
Qed.

Lemma handle_event_keys (s : Listener) (ev : key_event) :
  keys_normalized (current_keys s) -> keys_normalized (current_keys (fst (handle_event s ev))).
Proof.
  intros H. unfold handle_event.
  destruct (negb (ev_type ev =? EV_KEY)%Z); [exact H|].
  destruct (ev_value ev =? 1)%Z.
  - unfold on_key_down.
    set (s' := set_current s ({[normalize_key (ev_code ev)]} ∪ current_keys s)).
    pose proof (toggle_down_keys s' (normalize_key (ev_code ev)) (ev_time ev)) as K1.
    destruct (toggle_down _ _ _) as [s1 o1]; simpl in K1.
    pose proof (ptt_down_trace s1 (normalize_key (ev_code ev)) (ev_time ev)) as [_ K2].
    destruct (ptt_down _ _ _) as [s2 o2]; simpl in K2 |- *.
    rewrite K2, K1. subst s'. ChordFacts.unfold_setters. simpl.
    intros c Hc. apply elem_of_union in Hc as [Hc | Hc].
    + apply elem_of_singleton in Hc as ->. apply normalize_key_idem.
    + exact (H c Hc).
  - destruct (ev_value ev =? 0)%Z; [|exact H].
    unfold on_key_up.
    pose proof (ptt_release_combo_trace s (normalize_key (ev_code ev))) as [_ K1].
    destruct (ptt_release_combo _ _) as [s1 o1]; simpl in K1.
    pose proof (ptt_release_seq_trace s1 (normalize_key (ev_code ev))) as [_ K2].
    destruct (ptt_release_seq _ _) as [s2 o2]; simpl in K2 |- *.
    ChordFacts.unfold_setters. simpl. rewrite toggle_latch_reset_keys, K2, K1.
    intros c Hc. apply elem_of_difference in Hc as [Hc _]. exact (H c Hc).
Qed.

Lemma run_events_keys (evs : list key_event) :
  forall s, keys_normalized (current_keys s) ->
  keys_normalized (current_keys (fst (run_events s evs))).
Proof.
  induction evs as [|ev evs IH]; intros s H; simpl; [exact H|].
  pose proof (handle_event_keys s ev H) as H1.
  destruct (handle_event s ev) as [s1 o1]. specialize (IH s1 H1).
  destruct (run_events s1 evs). exact IH.
Qed.

(** A code that [normalize_key] moves is never in a normalised held set,
    whatever key was just added. *)
Lemma moved_not_held (k : gset Z) (c x : Z) :
  keys_normalized k -> normalize_key c <> c -> c ∉ {[normalize_key x]} ∪ k.
Proof.
  intros H Hc Hin. apply elem_of_union in Hin as [Hin | Hin].
  - apply elem_of_singleton in Hin. apply Hc. rewrite Hin.
    apply normalize_key_idem.
  - apply Hc. exact (H c Hin).
Qed.

Lemma moved_toggle_step (s : Listener) (K : gset Z) (c : Z) (ev : key_event) :
  keys_normalized (current_keys s) -> toggle_cfg s = mk_cfg K None -> c ∈ K ->
  normalize_key c <> c -> ~ In on_toggle (snd (handle_event s ev)).
Proof.
  intros H Hcfg HK Hc. unfold handle_event.
  destruct (negb (ev_type ev =? EV_KEY)%Z); [simpl; auto|].
  destruct (ev_value ev =? 1)%Z.
  - unfold on_key_down.
    set (s' := set_current s ({[normalize_key (ev_code ev)]} ∪ current_keys s)).
    rewrite (ChordFacts.toggle_down_combo s' K) by (subst s'; simpl; first [exact Hcfg | set_solver]).
    rewrite bool_decide_false.
    2:{ intros Hsub. apply (moved_not_held (current_keys s) c (ev_code ev) H Hc).
        apply Hsub, HK. }
    simpl.
    pose proof (ChordFacts.ptt_down_toggle_fields s' (normalize_key (ev_code ev)) (ev_time ev))
      as (_ & _ & P).
    destruct (ptt_down _ _ _). exact P.
  - destruct (ev_value ev =? 0)%Z; [|simpl; auto].
    unfold on_key_up.
    pose proof (ChordFacts.ptt_release_combo_toggle_fields s (normalize_key (ev_code ev)))
      as (_ & _ & _ & N1 & _).
    destruct (ptt_release_combo _ _) as [s1 o1]; simpl in N1.
    pose proof (ChordFacts.ptt_release_seq_toggle_fields s1 (normalize_key (ev_code ev)))
      as (_ & _ & _ & N2 & _).
    destruct (ptt_release_seq _ _) as [s2 o2]; simpl in *.
    rewrite in_app_iff. tauto.
Qed.

Lemma moved_ptt_step (s : Listener) (K : gset Z) (c : Z) (ev : key_event) :
  keys_normalized (current_keys s) -> ptt_cfg s = mk_cfg K None -> c ∈ K ->
  normalize_key c <> c -> ~ In on_ptt_press (snd (handle_event s ev)).
Proof.
  intros H Hcfg HK Hc. unfold handle_event.
  destruct (negb (ev_type ev =? EV_KEY)%Z); [simpl; auto|].
  destruct (ev_value ev =? 1)%Z.
  - unfold on_key_down.
    set (s' := set_current s ({[normalize_key (ev_code ev)]} ∪ current_keys s)).
    pose proof (ChordFacts.toggle_down_ptt_fields s' (normalize_key (ev_code ev)) (ev_time ev))
      as (C1 & _ & K1 & _ & N1).
    destruct (toggle_down _ _ _) as [s1 o1]; simpl in C1, K1, N1.
    rewrite (ChordFacts.ptt_down_combo s1 K) by (try rewrite C1; subst s'; simpl;
                                                 first [exact Hcfg | set_solver]).
    rewrite bool_decide_false.
    2:{ intros Hsub. apply (moved_not_held (current_keys s) c (ev_code ev) H Hc).
        rewrite K1 in Hsub; subst s'; simpl in Hsub. apply Hsub, HK. }
    simpl. rewrite app_nil_r. exact N1.
  - destruct (ev_value ev =? 0)%Z; [|simpl; auto].
    unfold on_key_up.
    pose proof (ChordFacts.ptt_release_combo_toggle_fields s (normalize_key (ev_code ev)))
      as (_ & _ & _ & _ & N1).
    destruct (ptt_release_combo _ _) as [s1 o1]; simpl in N1.
    pose proof (ChordFacts.ptt_release_seq_toggle_fields s1 (normalize_key (ev_code ev)))
      as (_ & _ & _ & _ & N2).
    destruct (ptt_release_seq _ _) as [s2 o2]; simpl in *.
    rewrite in_app_iff. tauto.
Qed.

(** Push-to-talk callbacks alternate: on every event stream, from every
    listener state, the press and release callbacks agree with the PTT
    latch, so from a clear latch the first is a press, no two presses
    come without a release between them, and no release comes without a
    press. *)
Theorem ptt_press_release_alternate (s : Listener) (evs : list key_event) :
  ptt_trace (ptt_combo_active s) (snd (run_events s evs))
  = Some (ptt_combo_active (fst (run_events s evs))).
Proof.
  revert s. induction evs as [|ev evs IH]; intros s; simpl; [reflexivity|].
  pose proof (handle_event_trace s ev) as H1.
  destruct (handle_event s ev) as [s1 o1]. simpl in H1.
  specialize (IH s1). destruct (run_events s1 evs) as [s2 o2]. simpl in *.
  now rewrite ptt_trace_app, H1.
Qed.

(** The held-key set only ever holds left-hand modifier codes: the
    right-hand codes [_EVDEV_MODIFIER_PAIRS] maps are never in it.  So a
    chord naming one of them (e.g. ["<rightctrl>+a"], which the parser
    resolves through [KEY_RIGHTCTRL]) never fires, bound as toggle or as
    push-to-talk. *)
Theorem right_modifier_chord_never_fires (s : Listener) (evs : list key_event) :
  keys_normalized (current_keys s) ->
  keys_normalized (current_keys (fst (run_events s evs))) /\
  (forall K c, toggle_cfg s = mk_cfg K None -> c ∈ K -> normalize_key c <> c ->
     ~ In on_toggle (snd (run_events s evs))) /\
  (forall K c, ptt_cfg s = mk_cfg K None -> c ∈ K -> normalize_key c <> c ->
     ~ In on_ptt_press (snd (run_events s evs))).
Proof.
  intros H. split; [exact (run_events_keys evs s H)|].
  revert s H. induction evs as [|ev evs IH]; intros s H; simpl; [split; auto|].
  pose proof (fun K c => moved_toggle_step s K c ev) as T.
  pose proof (fun K c => moved_ptt_step s K c ev) as P.
  pose proof (handle_event_keys s ev H) as H1.
  pose proof (ChordFacts.handle_event_cfgs s ev) as [C1 C2].
  destruct (handle_event s ev) as [s1 o1]. simpl in *.
  destruct (IH s1 H1) as [IT IP].
  destruct (run_events s1 evs) as [s2 o2]. simpl in *.
  split.
  - intros K c Hc HK Hm. rewrite in_app_iff.
    specialize (T K c H Hc HK Hm). specialize (IT K c ltac:(congruence) HK Hm). tauto.
  - intros K c Hc HK Hm. rewrite in_app_iff.
    specialize (P K c H Hc HK Hm). specialize (IP K c ltac:(congruence) HK Hm). tauto.
Qed.

Lemma right_modifier_chord_never_fires_witness :
  let s := set_shortcuts init_listener "<rightctrl>+a" "<rightalt>+x" in
  let evs := [ChordFacts.key_down 97 0; ChordFacts.key_down 30 0;
              ChordFacts.key_down 100 1; ChordFacts.key_down 45 1] in
  keys_normalized (current_keys (fst (run_events s evs))) /\
  ~ In on_toggle (snd (run_events s evs)) /\ ~ In on_ptt_press (snd (run_events s evs)).
Proof.
  destruct (right_modifier_chord_never_fires
              (set_shortcuts init_listener "<rightctrl>+a" "<rightalt>+x")
              [ChordFacts.key_down 97 0; ChordFacts.key_down 30 0;
               ChordFacts.key_down 100 1; ChordFacts.key_down 45 1])
    as (H0 & HT & HP).
  { intros c Hc. simpl in Hc. set_solver. }
  split; [exact H0|]. split.
  - apply (HT {[97%Z; 30%Z]} 97%Z); [vm_compute; reflexivity | set_solver | discriminate].
  - apply (HP {[100%Z; 45%Z]} 100%Z); [vm_compute; reflexivity | set_solver | discriminate].
Defined.

End EngineFacts.

(** ** Proofs about the [AudioRecorder] state machine *)

Module RecorderFacts.
Import Audio Recorder.

(** The stream is open exactly when recording or previewing. *)
Definition stream_inv (r : recorder) : Prop := stream_open r = recording r || previewing r.



Ltac unfold_rec :=
  unfold start_preview, stop_preview, start, stop, open_stream, close_stream,
    set_stream, set_recording, set_previewing, stream_inv in *.





Lemma step_no_chunk (resample : list Z -> Z -> Z -> list Z) (d : device) (r r' : recorder)
  (o : op) (e : list aeffect) :
  recording r = false -> o <> OpStart -> step resample d r o = Some (r', e) ->
  recording r' = false /\ forall pcm, ~ In (Chunk pcm) e.
Proof.
  destruct r as [so rc pv dr hl hc]. simpl. intros -> Ho Hs.
  destruct o; simpl in Hs; unfold_rec; simpl in *.
  - destruct (pv || false).
    + injection Hs as <- <-. simpl. auto.
    + destruct so; [injection Hs as <- <-; simpl; intuition congruence|].
      destruct (open_rate _ _); [|discriminate].
      injection Hs as <- <-. simpl. intuition congruence.
  - destruct pv; simpl in *; [|injection Hs as <- <-; simpl; auto].
    destruct so; injection Hs as <- <-; simpl; intuition congruence.
  - contradiction.
  - injection Hs as <- <-. simpl. auto.
  - injection Hs as <- <-. split; [reflexivity|].
    unfold audio_callback. simpl. intros pcm.
    destruct pv; simpl; [|auto].
    rewrite app_nil_r. destruct hl; simpl; intuition congruence.
Qed.

(** Without a call to [start], a recorder that is not recording never
    forwards an audio chunk: previewing only reports levels. *)
Theorem preview_never_forwards (resample : list Z -> Z -> Z -> list Z) (d : device)
  (r : recorder) (ops : list op) :
  recording r = false -> (forall o, In o ops -> o <> OpStart) ->
  recording (fst (run_ops resample d r ops)) = false /\
  forall pcm, ~ In (Chunk pcm) (snd (run_ops resample d r ops)).
Proof.
  revert r. induction ops as [|o os IH]; intros r Hr Ho; simpl; [auto|].
  destruct (step resample d r o) as [[r1 e1]|] eqn:S; [|simpl; auto].
  destruct (step_no_chunk resample d r r1 o e1 Hr (Ho o (or_introl eq_refl)) S) as [R1 N1].
  destruct (IH r1 R1 (fun o' H => Ho o' (or_intror H))) as [R2 N2].
  destruct (run_ops resample d r1 os) as [r2 e2]. simpl in *.
  split; [exact R2|]. intros pcm Hin. apply in_app_iff in Hin as [Hin | Hin].
  - exact (N1 pcm Hin).
  - exact (N2 pcm Hin).
Qed.

Lemma preview_never_forwards_witness :
  let d := mk_device None (fun _ => true) in
  let ops := [OpStartPreview; OpCallback [[5%Z]; [7%Z]]; OpStop; OpStopPreview] in
  recording (fst (run_ops (fun pcm _ _ => pcm) d (init_recorder true true) ops)) = false /\
  forall pcm, ~ In (Chunk pcm) (snd (run_ops (fun pcm _ _ => pcm) d (init_recorder true true) ops)).
Proof.
  apply (preview_never_forwards (fun pcm _ _ => pcm) (mk_device None (fun _ => true))
           (init_recorder true true)
           [OpStartPreview; OpCallback [[5%Z]; [7%Z]]; OpStop; OpStopPreview]).
  - reflexivity.
  - intros o Hin. simpl in Hin.
    destruct Hin as [<- | [<- | [<- | [<- | []]]]]; discriminate.
Defined.

(** [start] during a preview reuses the preview's stream: nothing is
    opened, the device rate is kept, and the call cannot raise, whatever
    the device would now accept. *)
Theorem start_reuses_preview_stream (d : device) (r : recorder) :
  stream_inv r -> previewing r = true ->
  start d r = Some (set_recording r true, []) \/ (recording r = true /\ start d r = Some (r, [])).
Proof.
  destruct r as [so rc pv dr hl hc]. unfold_rec. simpl. intros Hi ->.
  rewrite orb_true_r in Hi. subst so.
  destruct rc; [right; auto | left; reflexivity].
Qed.

Lemma start_reuses_preview_stream_witness :
  let r := mk_recorder true false true 44100%Z true true in
  start (mk_device (Some 44100%Z) (fun _ => false)) r = Some (set_recording r true, []) \/
  (recording r = true /\ start (mk_device (Some 44100%Z) (fun _ => false)) r = Some (r, [])).
Proof.
  apply start_reuses_preview_stream; reflexivity.
Defined.



(** Ending a recording that runs during a preview, in either order,
    closes the shared stream exactly once, at the second call. *)
Theorem stop_both_closes_once (r : recorder) :
  recording r = true -> previewing r = true -> stream_open r = true ->
  let '(r1, e1) := stop r in let '(r2, e2) := stop_preview r1 in
  let '(q1, f1) := stop_preview r in let '(q2, f2) := stop q1 in
  e1 = [] /\ e2 = [CloseStream] /\ stream_open r2 = false /\
  f1 = [] /\ f2 = [CloseStream] /\ stream_open q2 = false /\
  recording r2 = false /\ previewing r2 = false /\ recording q2 = false /\ previewing q2 = false.
Proof.
  destruct r as [so rc pv dr hl hc]. simpl. intros -> -> ->.
  unfold_rec. simpl. repeat split.
Qed.

Lemma stop_both_closes_once_witness :
  let r := mk_recorder true true true 48000%Z true true in
  let '(r1, e1) := stop r in let '(r2, e2) := stop_preview r1 in
  let '(q1, f1) := stop_preview r in let '(q2, f2) := stop q1 in
  e1 = [] /\ e2 = [CloseStream] /\ stream_open r2 = false /\
  f1 = [] /\ f2 = [CloseStream] /\ stream_open q2 = false /\
  recording r2 = false /\ previewing r2 = false /\ recording q2 = false /\ previewing q2 = false.
Proof. apply (stop_both_closes_once (mk_recorder true true true 48000%Z true true)); reflexivity. Defined.

End RecorderFacts.

(** ** Proofs about the application wiring of the transcriber callbacks *)

Module WiringFacts.
Import Transcriber Stream StreamFacts Wiring.

Lemma listen_calls_spec (params : nat) (b : bool) (frames : list (bool * frame)) :
  forall st,
  let '(out, st', exc) := listen_calls params b st frames in
  (call_raises params = false ->
     out = fst (listen b st frames) /\ st' = snd (listen b st frames) /\ exc = false) /\
  (call_raises params = true ->
     texts out = [] /\ (exc = true <-> texts (fst (listen b st frames)) <> [])).
Proof.
  induction frames as [|[run f] fs IH]; intros st; simpl.
  - split; [auto | intros _; split; [reflexivity | split; [discriminate | tauto]]].
  - destruct run; simpl.
    2:{ split; [auto | intros _; split; [reflexivity | split; [discriminate | tauto]]]. }
    destruct f as [|r]; [apply IH|].
    destruct (negb (error_code r =? "")).
    + specialize (IH st).
      destruct (listen_calls params b st fs) as [[out st'] exc].
      destruct (listen b st fs) as [lo lst] eqn:L. simpl in *.
      destruct IH as [I1 I2]. split.
      * intros H. destruct (I1 H) as (-> & -> & ->). auto.
      * intros H. destruct (I2 H) as [T E].
        rewrite !texts_app. destruct b; simpl; rewrite T; auto.
    + rewrite tokens_step.
      destruct (process_tokens st (tokens r)) as [o st1] eqn:P.
      destruct o as [i|].
      * destruct (call_raises params) eqn:C.
        -- split; [discriminate|]. intros _. split; [reflexivity|].
           destruct (finished r); simpl.
           ++ split; [intros _; discriminate | auto].
           ++ destruct (listen b st1 fs). simpl. split; [intros _; discriminate | auto].
        -- destruct (finished r); [split; [auto | discriminate]|].
           specialize (IH st1). destruct (listen_calls params b st1 fs) as [[out st'] exc].
           destruct (listen b st1 fs) as [lo lst]. simpl in *.
           destruct IH as [I1 _]. split; [|discriminate].
           intros _. destruct (I1 eq_refl) as (-> & -> & ->). auto.
      * destruct (finished r); [split; [auto | intros _; simpl; split; [reflexivity|]]|].
        -- split; [discriminate | tauto].
        -- specialize (IH st1). destruct (listen_calls params b st1 fs) as [[out st'] exc].
           destruct (listen b st1 fs) as [lo lst]. simpl in *. exact IH.
Qed.

(** The application's [on_text] handler takes four parameters but the
    transcriber calls it with two, so no correction ever reaches the
    application: [_listen] raises [TypeError] exactly when the
    transcriber has a correction to deliver, before delivering it; with
    a two-parameter handler the loop is the one of [_listen]. *)
Theorem app_on_text_arity_mismatch (b : bool) (st : string) (frames : list (bool * frame)) :
  call_raises APP_ON_TEXT_PARAMS = true /\
  (let '(out, _, exc) := listen_calls APP_ON_TEXT_PARAMS b st frames in
   texts out = [] /\ (exc = true <-> texts (fst (listen b st frames)) <> [])) /\
  listen_calls ON_TEXT_ARGS b st frames = (fst (listen b st frames), snd (listen b st frames), false).
Proof.
  split; [reflexivity|]. split.
  - pose proof (listen_calls_spec APP_ON_TEXT_PARAMS b frames st) as H.
    destruct (listen_calls APP_ON_TEXT_PARAMS b st frames) as [[out st'] exc].
    exact (proj2 H eq_refl).
  - pose proof (listen_calls_spec ON_TEXT_ARGS b frames st) as H.
    destruct (listen_calls ON_TEXT_ARGS b st frames) as [[out st'] exc].
    destruct (proj1 H eq_refl) as (-> & -> & ->). reflexivity.
Qed.

Lemma update_live_text_apply (cur text : string) (bs : nat) :
  update_live_text cur text bs = apply_instr cur (text, bs).
Proof.
  unfold update_live_text, apply_instr.
  destruct (Nat.ltb 0 bs) eqn:E0.
  - destruct (Nat.ltb bs (String.length cur)) eqn:E1; [reflexivity|].
    apply Nat.ltb_ge in E1.
    replace (String.length cur - bs) with 0 by lia. destruct cur; reflexivity.
  - apply Nat.ltb_ge in E0. replace bs with 0 by lia.
    rewrite Nat.sub_0_r. now rewrite WarnFacts.substring_all.
Qed.

(** The live preview of [update_live_text] applies a correction exactly
    as the reconciler's buffer model does; so, fed the corrections of a
    stream, it shows the final text of the processed responses followed
    by the latest provisional text. *)
Theorem live_preview_follows_corrections (b : bool) (frames : list (bool * frame)) :
  (forall cur text bs, update_live_text cur text bs = apply_instr cur (text, bs)) /\
  fold_left (fun cur i => update_live_text cur (fst i) (snd i)) (texts (fst (listen b "" frames))) ""
  = String.append (final_so_far (processed frames)) (last_nonfinal "" (processed frames)).
Proof.
  split; [exact update_live_text_apply|].
  destruct (listen_run_batches b frames "") as (T & _ & _).
  destruct (TranscriberFacts.run_batches_buffer (processed frames) "" "") as [B1 _].
  rewrite T. simpl in B1. rewrite <- B1. unfold apply_all.
  generalize (fst (run_batches "" (processed frames))) as l. generalize "" as cur.
  intros cur l. revert cur. induction l as [|[text bs] l IH]; intros cur; simpl; [reflexivity|].
  rewrite update_live_text_apply. apply IH.
Qed.

End WiringFacts.

(** ** Proofs about the keysym injection *)

Module TyperFacts.
Import Typer.

Lemma char_to_keysym_range (cp : Z) :
  (0 <= cp)%Z ->
  (char_to_keysym cp = cp /\ ((32 <= cp <= 126)%Z \/ (160 <= cp <= 255)%Z)) \/
  (char_to_keysym cp = 65293%Z /\ cp = 10%Z) \/
  (char_to_keysym cp = 65289%Z /\ cp = 9%Z) \/
  (char_to_keysym cp = 65288%Z /\ cp = 8%Z) \/
  (char_to_keysym cp = (16777216 + cp)%Z /\ ~ ((32 <= cp <= 126)%Z \/ (160 <= cp <= 255)%Z)).
Proof.
  intros H. unfold char_to_keysym.
  destruct (cp =? 10)%Z eqn:E1; [apply Z.eqb_eq in E1; tauto|].
  destruct (cp =? 9)%Z eqn:E2; [apply Z.eqb_eq in E2; tauto|].
  destruct (cp =? 8)%Z eqn:E3; [apply Z.eqb_eq in E3; tauto|].
  destruct ((32 <=? cp)%Z && (cp <=? 126)%Z) eqn:E4.
  { apply andb_true_iff in E4. rewrite !Z.leb_le in E4. left. split; [reflexivity | lia]. }
  destruct ((160 <=? cp)%Z && (cp <=? 255)%Z) eqn:E5.
  { apply andb_true_iff in E5. rewrite !Z.leb_le in E5. left. split; [reflexivity | lia]. }
  right; right; right; right. split; [reflexivity|].
  apply andb_false_iff in E4, E5. rewrite !Z.leb_gt in E4, E5. lia.
Qed.

Lemma char_to_keysym_inj (a b : Z) :
  (0 <= a)%Z -> (0 <= b)%Z -> char_to_keysym a = char_to_keysym b -> a = b.
Proof.
  intros Ha Hb E.
  destruct (char_to_keysym_range a Ha) as [[A A']|[[A A']|[[A A']|[[A A']|[A A']]]]];
  destruct (char_to_keysym_range b Hb) as [[B B']|[[B B']|[[B B']|[[B B']|[B B']]]]];
  rewrite A, B in E; lia.
Qed.

Lemma press_release_inj (t u : list Z) :
  Forall (fun c => 0 <= c)%Z t -> Forall (fun c => 0 <= c)%Z u ->
  press_release t = press_release u -> t = u.
Proof.
  revert u. induction t as [|a t IH]; intros [|b u] Ht Hu E; simpl in E; try discriminate.
  - reflexivity.
  - inversion Ht; inversion Hu; subst. injection E as E1 E2.
    f_equal; [apply char_to_keysym_inj; assumption | apply IH; assumption].
Qed.

Lemma type_keysyms_prefix (outcomes : list bool) (text : list Z) :
  type_keysyms outcomes text `prefix_of` press_release text /\
  (Forall (fun o => o = true) outcomes -> type_keysyms outcomes text = press_release text).
Proof.
  revert outcomes. induction text as [|ch rest IH]; intros outcomes; simpl.
  - split; reflexivity.
  - destruct outcomes as [|[] [|[] os]]; simpl.
    + destruct (IH []) as [P F]. split.
      * apply prefix_cons, prefix_cons, P.
      * intros _. rewrite F by constructor. reflexivity.
    + destruct (IH []) as [P F]. split.
      * apply prefix_cons, prefix_cons, P.
      * intros _. rewrite F by constructor. reflexivity.
    + destruct (IH os) as [P F]. split.
      * apply prefix_cons, prefix_cons, P.
      * intros Hall. inversion Hall as [|? ? _ H2]; subst.
        inversion H2; subst. rewrite F by assumption. reflexivity.
    + split.
      * exists (Notify (char_to_keysym ch) 0 :: press_release rest). reflexivity.
      * intros Hall. inversion Hall as [|? ? _ H2]; inversion H2; discriminate.
    + split; [apply prefix_nil | intros Hall; inversion Hall; discriminate].
    + split; [apply prefix_nil | intros Hall; inversion Hall; discriminate].
    + split; [apply prefix_nil | intros Hall; inversion Hall; discriminate].
Qed.



(** [type_text] on a portal that is not set up sends nothing; otherwise
    it sends a press and then a release for each character, in order,
    and a failing call ends it, so what the portal received is always a
    prefix of that sequence (no release without its press, nothing after
    a failure), all of it when no call fails; the whole sequence
    determines the text. *)
Theorem type_text_press_release (ready : bool) (outcomes : list bool) (text : list Z) :
  Forall (fun c => 0 <= c)%Z text ->
  (ready = false -> type_text ready outcomes text = []) /\
  (ready = true ->
     type_text ready outcomes text `prefix_of` press_release text /\
     (Forall (fun o => o = true) outcomes -> type_text ready outcomes text = press_release text)) /\
  (forall text', Forall (fun c => 0 <= c)%Z text' ->
     press_release text' = press_release text -> text' = text).
Proof.
  intros Ht. split; [intros ->; reflexivity|]. split.
  - intros ->. exact (type_keysyms_prefix outcomes text).
  - intros text' Ht' E. exact (press_release_inj text' text Ht' Ht E).
Qed.

Lemma type_text_press_release_witness :
  Forall (fun c => 0 <= c)%Z [104%Z; 105%Z; 10%Z] /\
  type_text true [true; true; true; false] [104%Z; 105%Z; 10%Z]
  = [Notify 104 1; Notify 104 0; Notify 105 1] /\
  type_text true [true; true; true; false] [104%Z; 105%Z; 10%Z]
    `prefix_of` press_release [104%Z; 105%Z; 10%Z].
Proof.
  assert (H : Forall (fun c => 0 <= c)%Z [104%Z; 105%Z; 10%Z]) by (repeat (constructor; [lia|]); constructor).
  split; [exact H|]. split; [reflexivity|].
  exact (proj1 (proj1 (proj2 (type_text_press_release true [true; true; true; false] _ H)) eq_refl)).
Defined.

End TyperFacts.
